(** * ocaml-uring: the C stubs of [lib/uring/uring_stubs.c]

    A shallow embedding of the stubs that bind liburing to OCaml, and the
    properties of the ring abstraction proved (or refuted) on it.

    What is modelled, and how:
    - C integers are [Z] with the wrap-around of each conversion written out
      ([Int_val], [Long_val], [Val_int], casts to unsigned fields);
    - OCaml custom blocks ([Ring_val], [Sock_addr_val], [Open_how_val]) are
      locations of a store holding one C pointer each, so that aliases of a
      handle see the same pointer; the blocks obtained from [caml_stat_alloc]
      live in a C heap indexed by their address, [NULL] being address 0;
    - a stub is a function from the world to an outcome: it returns, raises
      [Unix.Unix_error], does not return (a blocking wait that nothing
      wakes), or has no defined behaviour (a null or dangling pointer handed
      to C code that dereferences it);
    - liburing and the OCaml runtime are not part of the repository.  The
      inline helpers of [liburing.h] that only touch the user-space rings are
      transcribed ([io_uring_get_sqe], [io_uring_prep_*], [io_uring_cqe_seen]);
      what the kernel does is an explicit argument of the calls that enter it
      (the completions it posts, the error number it reports). *)

From Stdlib Require Import ZArith List Lia Bool String SpecFloat.
From Stdlib.Strings Require Import Byte.
From stdpp Require Import base option list gmap.
Import ListNotations.
Local Open Scope Z_scope.

(** ** Machine integers *)

Module MachInt.

Definition wrap_unsigned (bits x : Z) : Z := x mod 2 ^ bits.

Definition wrap_signed (bits x : Z) : Z :=
  (x + 2 ^ (bits - 1)) mod 2 ^ bits - 2 ^ (bits - 1).

Definition u8 := wrap_unsigned 8.
Definition u16 := wrap_unsigned 16.
Definition u32 := wrap_unsigned 32.
Definition u64 := wrap_unsigned 64.
Definition s32 := wrap_signed 32.
Definition s64 := wrap_signed 64.

(** An OCaml [int] is represented by the integer it denotes, which lies in
    [-2^62, 2^62).  [Long_val] sign-extends it into an [intnat]; [Int_val]
    then narrows to a C [int]; [Val_int] shifts the tag bit in and so keeps
    63 bits. *)
Definition ml_int_range (x : Z) : Prop := - 2 ^ 62 <= x < 2 ^ 62.
Definition Long_val (v : Z) : Z := v.
Definition Int_val (v : Z) : Z := s32 (Long_val v).
Definition Int63_val (v : Z) : Z := Long_val v.
Definition Val_int (x : Z) : Z := wrap_signed 63 x.

End MachInt.
Import MachInt.

(** ** Error numbers and constants of the platform (Linux, x86-64) *)

Definition EINTR : Z := 4.
Definition EAGAIN : Z := 11.
Definition ETIME : Z := 62.
Definition ENOENT : Z := 2.
Definition ENAMETOOLONG : Z := 36.
Definition EAFNOSUPPORT : Z := 97.

Definition SOCK_CLOEXEC : Z := 524288.

Definition IORING_OP_NOP : Z := 0.
Definition IORING_OP_READV : Z := 1.
Definition IORING_OP_WRITEV : Z := 2.
Definition IORING_OP_READ_FIXED : Z := 4.
Definition IORING_OP_WRITE_FIXED : Z := 5.
Definition IORING_OP_POLL_ADD : Z := 6.
Definition IORING_OP_ACCEPT : Z := 13.
Definition IORING_OP_ASYNC_CANCEL : Z := 14.
Definition IORING_OP_CONNECT : Z := 16.
Definition IORING_OP_CLOSE : Z := 19.
Definition IORING_OP_OPENAT2 : Z := 28.
Definition IORING_OP_SPLICE : Z := 30.

(** ** The rings *)

(** [struct io_uring_sqe].  Members of a C union are one field here: [off]
    is also [addr2]; [addr] is also [splice_off_in]; [op_flags] is the union
    of [rw_flags], [poll32_events], [accept_flags], [cancel_flags],
    [splice_flags], ...  The first word of [__pad2] holds [buf_index],
    [personality] and [splice_fd_in]. *)
Record io_uring_sqe := Sqe {
  opcode : Z;
  sqe_flags : Z;
  ioprio : Z;
  fd : Z;
  off : Z;
  addr : Z;
  len : Z;
  op_flags : Z;
  user_data : Z;
  buf_index : Z;
  personality : Z;
  splice_fd_in : Z;
  pad2_1 : Z;
  pad2_2 : Z
}.

(** [struct io_uring_cqe]. *)
Record io_uring_cqe := Cqe {
  cqe_user_data : Z;
  cqe_res : Z;
  cqe_flags : Z
}.

(** [struct io_uring_sq] and [struct io_uring_cq]: the words that liburing
    reaches through [khead], [ktail], [kring_mask] and [kring_entries] are
    in memory shared with the kernel; they are kept here with the ring. *)
Record io_uring_sq := Sq {
  sq_khead : Z;
  sq_ktail : Z;
  sq_kring_mask : Z;
  sq_kring_entries : Z;
  sqe_head : Z;
  sqe_tail : Z;
  sqes : list io_uring_sqe
}.

Record io_uring_cq := Cq {
  cq_khead : Z;
  cq_ktail : Z;
  cq_kring_mask : Z;
  cq_kring_entries : Z;
  cqes : list io_uring_cqe
}.

Record io_uring := Ring {
  sq : io_uring_sq;
  cq : io_uring_cq;
  ring_fd : Z
}.

(** ** Resource-handle payloads *)

(** [struct sock_addr_data]: the bytes of [union sock_addr_union] and the
    stored length. *)
Record sock_addr_data := SockAddrData {
  sock_addr_addr : list byte;
  sock_addr_len : Z
}.

(** [struct open_how_data]: [struct open_how] followed by the path. *)
Record open_how_data := OpenHowData {
  how_flags : Z;
  how_mode : Z;
  how_resolve : Z;
  how_path : list byte
}.

(** ** The world: OCaml custom blocks, the C heap, what was asked of the kernel *)

Inductive cblock :=
| Bring (r : io_uring)
| Bsock (d : sock_addr_data)
| Bhow (d : open_how_data).

Inductive event :=
| Ev_queue_exit (ring_fd : Z)   (* io_uring_queue_exit: unmap the rings, close the descriptor *)
| Ev_stat_free (p : Z).         (* caml_stat_free of a live block *)

Record world := World {
  customs : gmap positive Z;    (* custom block -> the C pointer it holds *)
  c_heap : gmap Z cblock;       (* address -> block obtained from caml_stat_alloc *)
  trace : list event
}.

Record unix_error_exn := Unix_error {
  err_code : Z;
  err_fn : string
}.

Inductive outcome (A : Type) : Type :=
| Returns (a : A) (w : world)
| Raises (e : unix_error_exn) (w : world)
| Blocks
| Undefined.
Arguments Returns {A} a w.
Arguments Raises {A} e w.
Arguments Blocks {A}.
Arguments Undefined {A}.

Definition stub (A : Type) : Type := world -> outcome A.

#[global] Instance stub_ret : MRet stub := fun A a w => Returns a w.

#[global] Instance stub_bind : MBind stub := fun A B f m w =>
  match m w with
  | Returns a w' => f a w'
  | Raises e w' => Raises e w'
  | Blocks => Blocks
  | Undefined => Undefined
  end.

Definition undefined {A} : stub A := fun _ => Undefined.
Definition blocks {A} : stub A := fun _ => Blocks.

(** [unix_error(code, fn, Nothing)] *)
Definition unix_error {A} (code : Z) (fn : string) : stub A :=
  fun w => Raises (Unix_error code fn) w.

Definition NULL : Z := 0.

(** [Data_custom_val(v)] read as a pointer, and the assignment to it. *)
Definition custom_get (v : positive) : stub Z := fun w =>
  match customs w !! v with
  | Some p => Returns p w
  | None => Undefined
  end.

Definition custom_set (v : positive) (p : Z) : stub unit := fun w =>
  match customs w !! v with
  | Some _ => Returns tt (World (<[v := p]> (customs w)) (c_heap w) (trace w))
  | None => Undefined
  end.

Definition heap_get (p : Z) : stub cblock := fun w =>
  if p =? NULL then Undefined else
  match c_heap w !! p with
  | Some b => Returns b w
  | None => Undefined
  end.

Definition heap_set (p : Z) (b : cblock) : stub unit := fun w =>
  if p =? NULL then Undefined else
  match c_heap w !! p with
  | Some _ => Returns tt (World (customs w) (<[p := b]> (c_heap w)) (trace w))
  | None => Undefined
  end.

Definition emit (e : event) : stub unit := fun w =>
  Returns tt (World (customs w) (c_heap w) (trace w ++ [e])).

Definition ring_get (ring : Z) : stub io_uring :=
  b ← heap_get ring;
  match b with Bring r => mret r | _ => undefined end.

Definition ring_set (ring : Z) (r : io_uring) : stub unit :=
  _ ← ring_get ring; heap_set ring (Bring r).

(** [caml_stat_alloc]: a fresh, non-null address; the block's contents are
    whatever the caller passes as [init] (the allocator does not clear). *)
Definition caml_stat_alloc (init : cblock) : stub Z := fun w =>
  let p := fresh ({[NULL]} ∪ dom (c_heap w)) in
  Returns p (World (customs w) (<[p := init]> (c_heap w)) (trace w)).

(** [caml_stat_free]: null is ignored, a live block is released, anything
    else is a double or invalid free. *)
Definition caml_stat_free (p : Z) : stub unit := fun w =>
  if p =? NULL then Returns tt w else
  match c_heap w !! p with
  | Some _ => Returns tt (World (customs w) (delete p (c_heap w)) (trace w ++ [Ev_stat_free p]))
  | None => Undefined
  end.

(** [caml_alloc_custom_mem]: a fresh custom block, its payload not yet set
    (the stubs store [NULL] first). *)
Definition caml_alloc_custom_mem : stub positive := fun w =>
  let v := fresh (dom (customs w)) in
  Returns v (World (<[v := NULL]> (customs w)) (c_heap w) (trace w)).

(** ** liburing: the helpers that only touch the user-space rings

    (From [liburing.h] and [queue.c]; liburing is an external library.) *)

(** A pointer to a slot of a ring: the ring it belongs to and the index of
    the slot; [None] is the null pointer. *)
Definition slot_ptr : Type := option (Z * nat).

Definition set_sq (r : io_uring) (s : io_uring_sq) : io_uring := Ring s (cq r) (ring_fd r).
Definition set_cq (r : io_uring) (c : io_uring_cq) : io_uring := Ring (sq r) c (ring_fd r).

Definition set_sqe_tail (s : io_uring_sq) (t : Z) : io_uring_sq :=
  Sq (sq_khead s) (sq_ktail s) (sq_kring_mask s) (sq_kring_entries s) (sqe_head s) t (sqes s).

Definition set_sqes (s : io_uring_sq) (l : list io_uring_sqe) : io_uring_sq :=
  Sq (sq_khead s) (sq_ktail s) (sq_kring_mask s) (sq_kring_entries s) (sqe_head s) (sqe_tail s) l.

Definition set_cq_khead (c : io_uring_cq) (h : Z) : io_uring_cq :=
  Cq h (cq_ktail c) (cq_kring_mask c) (cq_kring_entries c) (cqes c).

(** The submission ring has no free slot. *)
Definition sq_full (s : io_uring_sq) : bool :=
  negb (u32 (u32 (sqe_tail s + 1) - sq_khead s) <=? sq_kring_entries s).

(** [io_uring_get_sqe]: the next slot, or null when
    [next - head > *kring_entries]. *)
Definition io_uring_get_sqe (ring : Z) : stub slot_ptr :=
  r ← ring_get ring;
  let head := sq_khead (sq r) in
  let next := u32 (sqe_tail (sq r) + 1) in
  if u32 (next - head) <=? sq_kring_entries (sq r) then
    ring_set ring (set_sq r (set_sqe_tail (sq r) next));;
    mret (Some (ring, Z.to_nat (Z.land (sqe_tail (sq r)) (sq_kring_mask (sq r)))))
  else mret None.

(** An assignment through a pointer to a submission entry. *)
Definition at_sqe (sqe : slot_ptr) (f : io_uring_sqe -> io_uring_sqe) : stub unit :=
  match sqe with
  | None => undefined
  | Some (ring, i) =>
      r ← ring_get ring;
      match sqes (sq r) !! i with
      | Some e => ring_set ring (set_sq r (set_sqes (sq r) (<[i := f e]> (sqes (sq r)))))
      | None => undefined
      end
  end.

Definition io_uring_prep_rw (op fd_ addr_ len_ offset : Z) (e : io_uring_sqe) : io_uring_sqe :=
  {| opcode := u8 op; sqe_flags := 0; ioprio := 0; fd := s32 fd_;
     off := u64 offset; addr := u64 addr_; len := u32 len_;
     op_flags := 0; user_data := 0;
     buf_index := 0; personality := 0; splice_fd_in := 0; pad2_1 := 0; pad2_2 := 0 |}.

Definition set_op_flags (x : Z) (e : io_uring_sqe) : io_uring_sqe :=
  Sqe (opcode e) (sqe_flags e) (ioprio e) (fd e) (off e) (addr e) (len e) (u32 x)
      (user_data e) (buf_index e) (personality e) (splice_fd_in e) (pad2_1 e) (pad2_2 e).

Definition set_addr (x : Z) (e : io_uring_sqe) : io_uring_sqe :=
  Sqe (opcode e) (sqe_flags e) (ioprio e) (fd e) (off e) (u64 x) (len e) (op_flags e)
      (user_data e) (buf_index e) (personality e) (splice_fd_in e) (pad2_1 e) (pad2_2 e).

Definition set_buf_index (x : Z) (e : io_uring_sqe) : io_uring_sqe :=
  Sqe (opcode e) (sqe_flags e) (ioprio e) (fd e) (off e) (addr e) (len e) (op_flags e)
      (user_data e) (u16 x) (personality e) (splice_fd_in e) (pad2_1 e) (pad2_2 e).

Definition set_splice_fd_in (x : Z) (e : io_uring_sqe) : io_uring_sqe :=
  Sqe (opcode e) (sqe_flags e) (ioprio e) (fd e) (off e) (addr e) (len e) (op_flags e)
      (user_data e) (buf_index e) (personality e) (s32 x) (pad2_1 e) (pad2_2 e).

(** [io_uring_sqe_set_data]: [sqe->user_data = (unsigned long) data]. *)
Definition io_uring_sqe_set_data (data : Z) (e : io_uring_sqe) : io_uring_sqe :=
  Sqe (opcode e) (sqe_flags e) (ioprio e) (fd e) (off e) (addr e) (len e) (op_flags e)
      (u64 data) (buf_index e) (personality e) (splice_fd_in e) (pad2_1 e) (pad2_2 e).

Definition io_uring_prep_nop : io_uring_sqe -> io_uring_sqe :=
  io_uring_prep_rw IORING_OP_NOP (-1) NULL 0 0.

Definition sizeof_open_how : Z := 24.

Definition io_uring_prep_openat2 (dfd path how : Z) : io_uring_sqe -> io_uring_sqe :=
  io_uring_prep_rw IORING_OP_OPENAT2 dfd path sizeof_open_how how.

Definition io_uring_prep_close (fd_ : Z) : io_uring_sqe -> io_uring_sqe :=
  io_uring_prep_rw IORING_OP_CLOSE fd_ NULL 0 0.

Definition io_uring_prep_poll_add (fd_ poll_mask : Z) (e : io_uring_sqe) : io_uring_sqe :=
  set_op_flags poll_mask (io_uring_prep_rw IORING_OP_POLL_ADD fd_ NULL 0 0 e).

Definition io_uring_prep_readv (fd_ iovecs nr_vecs offset : Z) : io_uring_sqe -> io_uring_sqe :=
  io_uring_prep_rw IORING_OP_READV fd_ iovecs nr_vecs offset.

Definition io_uring_prep_writev (fd_ iovecs nr_vecs offset : Z) : io_uring_sqe -> io_uring_sqe :=
  io_uring_prep_rw IORING_OP_WRITEV fd_ iovecs nr_vecs offset.

Definition io_uring_prep_read_fixed (fd_ buf nbytes offset buf_index_ : Z) (e : io_uring_sqe) : io_uring_sqe :=
  set_buf_index buf_index_ (io_uring_prep_rw IORING_OP_READ_FIXED fd_ buf nbytes offset e).

Definition io_uring_prep_write_fixed (fd_ buf nbytes offset buf_index_ : Z) (e : io_uring_sqe) : io_uring_sqe :=
  set_buf_index buf_index_ (io_uring_prep_rw IORING_OP_WRITE_FIXED fd_ buf nbytes offset e).

(** [io_uring_prep_splice]: the entry is prepared for the output side, then
    [splice_off_in], [splice_fd_in] and [splice_flags] are assigned. *)
Definition io_uring_prep_splice (fd_in off_in fd_out off_out nbytes splice_flags : Z)
    (e : io_uring_sqe) : io_uring_sqe :=
  set_op_flags splice_flags
    (set_splice_fd_in fd_in
      (set_addr off_in
        (io_uring_prep_rw IORING_OP_SPLICE fd_out NULL nbytes off_out e))).

Definition io_uring_prep_connect (fd_ addr_ addrlen : Z) : io_uring_sqe -> io_uring_sqe :=
  io_uring_prep_rw IORING_OP_CONNECT fd_ addr_ 0 addrlen.

Definition io_uring_prep_accept (fd_ addr_ addrlen flags : Z) (e : io_uring_sqe) : io_uring_sqe :=
  set_op_flags flags (io_uring_prep_rw IORING_OP_ACCEPT fd_ addr_ 0 addrlen e).

Definition io_uring_prep_cancel (target flags : Z) (e : io_uring_sqe) : io_uring_sqe :=
  set_op_flags flags (io_uring_prep_rw IORING_OP_ASYNC_CANCEL (-1) target 0 0 e).

(** Reads through a pointer to a completion entry. *)
Definition cqe_read (cqe : slot_ptr) : stub io_uring_cqe :=
  match cqe with
  | None => undefined
  | Some (ring, i) =>
      r ← ring_get ring;
      match cqes (cq r) !! i with
      | Some c => mret c
      | None => undefined
      end
  end.

(** [io_uring_cqe_get_data]: [cqe->user_data] converted to a pointer. *)
Definition io_uring_cqe_get_data (cqe : slot_ptr) : stub Z :=
  c ← cqe_read cqe; mret (u64 (cqe_user_data c)).

(** [cqe->res] *)
Definition cqe_get_res (cqe : slot_ptr) : stub Z :=
  c ← cqe_read cqe; mret (cqe_res c).

(** [io_uring_cqe_seen]: [if (cqe) io_uring_cq_advance(ring, 1)], which
    publishes [*khead + 1]. *)
Definition io_uring_cqe_seen (ring : Z) (cqe : slot_ptr) : stub unit :=
  match cqe with
  | None => mret tt
  | Some _ =>
      r ← ring_get ring;
      ring_set ring (set_cq r (set_cq_khead (cq r) (u32 (cq_khead (cq r) + 1))))
  end.

(** ** liburing: the calls that enter the kernel

    The kernel is the other party of the rings.  What it does during a call
    is an argument of the call: either it posted completions (possibly none),
    or the system call failed with an error number. *)

Inductive kernel_reply :=
| Kposted (cs : list io_uring_cqe)
| Kerrno (e : positive).

(** The kernel writes a completion at [ktail] and publishes the new tail; it
    never writes over an entry the application has not marked seen. *)
Definition kernel_post (c : io_uring_cq) (x : io_uring_cqe) : io_uring_cq :=
  if u32 (cq_ktail c - cq_khead c) <? cq_kring_entries c then
    Cq (cq_khead c) (u32 (cq_ktail c + 1)) (cq_kring_mask c) (cq_kring_entries c)
       (<[Z.to_nat (Z.land (cq_ktail c) (cq_kring_mask c)) := x]> (cqes c))
  else c.

Definition kernel_posts (ring : Z) (cs : list io_uring_cqe) : stub unit :=
  match cs with
  | [] => mret tt
  | _ => r ← ring_get ring; ring_set ring (set_cq r (fold_left kernel_post cs (cq r)))
  end.

(** The oldest completion not yet marked seen, as [__io_uring_peek_cqe]
    finds it: [&cq->cqes[head & mask]] unless [tail - head] is zero. *)
Definition cq_oldest (c : io_uring_cq) : option nat :=
  if u32 (cq_ktail c - cq_khead c) =? 0 then None
  else Some (Z.to_nat (Z.land (cq_khead c) (cq_kring_mask c))).

(** What the three retrieval calls have in common: the return value and
    [*cqe_ptr].  [if_none] is what the call does when no completion is there. *)
Definition get_cqe (if_none : stub (Z * slot_ptr)) (k : kernel_reply) (ring : Z)
    : stub (Z * slot_ptr) :=
  match k with
  | Kerrno e => _ ← ring_get ring; mret (Z.neg e, None)
  | Kposted cs =>
      _ ← ring_get ring;
      kernel_posts ring cs;;
      r ← ring_get ring;
      match cq_oldest (cq r) with
      | Some i => mret (0, Some (ring, i))
      | None => if_none
      end
  end.

(** [io_uring_wait_cqe]: returns 0 and the oldest completion, or a negated
    error number; with nothing to return it keeps waiting. *)
Definition io_uring_wait_cqe : kernel_reply -> Z -> stub (Z * slot_ptr) :=
  get_cqe blocks.

(** [io_uring_wait_cqe_timeout]: as above, but gives up with [-ETIME]. *)
Definition io_uring_wait_cqe_timeout (ts : Z * Z) : kernel_reply -> Z -> stub (Z * slot_ptr) :=
  get_cqe (mret (- ETIME, None)).

(** [io_uring_peek_cqe]: does not wait, [-EAGAIN] when nothing is there. *)
Definition io_uring_peek_cqe : kernel_reply -> Z -> stub (Z * slot_ptr) :=
  get_cqe (mret (- EAGAIN, None)).

(** [io_uring_submit]: publishes the prepared entries and enters the kernel,
    which reports how many it consumed, or a negated error number.  While the
    call is in the kernel, the kernel may complete operations: [posted] are
    the completions it posts before the call returns. *)
Definition io_uring_submit (kret : Z) (posted : list io_uring_cqe) (ring : Z) : stub Z :=
  r ← ring_get ring;
  let s := sq r in
  let to_submit := u32 (sqe_tail s - sqe_head s) in
  let consumed := if 0 <=? kret then kret else 0 in
  ring_set ring (set_sq r
    (Sq (u32 (sq_khead s + consumed)) (u32 (sq_ktail s + to_submit))
        (sq_kring_mask s) (sq_kring_entries s) (sqe_tail s) (sqe_tail s) (sqes s)));;
  kernel_posts ring posted;;
  mret (s32 kret).

(** [io_uring_register_buffers], [io_uring_unregister_buffers]: system calls
    on the ring's descriptor; the kernel's answer is their return value. *)
Definition io_uring_register_buffers (kret : Z) (ring : Z) (iov : list (Z * Z)) : stub Z :=
  _ ← ring_get ring; mret (s32 kret).

Definition io_uring_unregister_buffers (kret : Z) (ring : Z) : stub Z :=
  _ ← ring_get ring; mret (s32 kret).

(** [io_uring_queue_exit]: unmaps the rings and closes the descriptor. *)
Definition io_uring_queue_exit (ring : Z) : stub unit :=
  r ← ring_get ring; emit (Ev_queue_exit (ring_fd r)).

(** ** The stubs *)

(** [Ring_val(v)], [Sock_addr_val(v)], [Open_how_val(v)] *)
Definition Ring_val : positive -> stub Z := custom_get.
Definition Sock_addr_val : positive -> stub Z := custom_get.
Definition Open_how_val : positive -> stub Z := custom_get.

Definition Val_unit : unit := tt.
Definition Val_false : bool := false.
Definition Val_true : bool := true.

(** A bigarray: [Caml_ba_data_val] and [Caml_ba_array_val(v)->dim[0]]. *)
Record bigarray := Bigarray {
  Caml_ba_data_val : Z;
  ba_dim0 : Z
}.

(** The iovec value: field 0 is the address of the [struct iovec] array
    with the tag bit set, field 1 the OCaml array of buffers, of which only
    the size is used. *)
Record iovec_val := IovecVal {
  iov_field0 : Z;
  iov_wosize1 : Z
}.

Definition ocaml_uring_register_ba (kret : Z) (v_uring : positive) (v_ba : bigarray) : stub unit :=
  ring ← Ring_val v_uring;
  let iov := [(Caml_ba_data_val v_ba, ba_dim0 v_ba)] in
  ret ← io_uring_register_buffers kret ring iov;
  if negb (ret =? 0) then unix_error (- ret) "io_uring_register_buffers"
  else mret Val_unit.

Definition ocaml_uring_unregister_ba (kret : Z) (v_uring : positive) (v_ba : bigarray) : stub unit :=
  ring ← Ring_val v_uring;
  ret ← io_uring_unregister_buffers kret ring;
  if negb (ret =? 0) then unix_error (- ret) "io_uring_register_buffers"
  else mret Val_unit.

Definition ocaml_uring_exit (v_uring : positive) : stub unit :=
  ring ← Ring_val v_uring;
  if negb (ring =? NULL) then
    io_uring_queue_exit ring;;
    caml_stat_free ring;;
    custom_set v_uring NULL;;
    mret Val_unit
  else mret Val_unit.

Definition ocaml_uring_submit_nop (v_uring : positive) (v_id : Z) : stub bool :=
  ring ← Ring_val v_uring;
  sqe ← io_uring_get_sqe ring;
  if bool_decide (sqe = None) then mret Val_false else
  at_sqe sqe io_uring_prep_nop;;
  at_sqe sqe (io_uring_sqe_set_data (Long_val v_id));;
  mret Val_true.

(** The options and the path, NUL included, are copied into one block. *)
Definition ocaml_uring_make_open_how (v_flags v_mode v_resolve : Z) (v_path : list byte)
    : stub positive :=
  v ← caml_alloc_custom_mem;
  custom_set v NULL;;
  data ← caml_stat_alloc
    (Bhow (OpenHowData (u64 (Long_val v_flags)) (u64 (Long_val v_mode))
                       (u64 (Long_val v_resolve)) (v_path ++ [x00])));
  custom_set v data;;
  mret v.

Definition ocaml_uring_submit_openat2 (v_uring : positive) (v_id v_fd : Z) (v_open_how : positive)
    : stub bool :=
  ring ← Ring_val v_uring;
  sqe ← io_uring_get_sqe ring;
  if bool_decide (sqe = None) then mret Val_false else
  data ← Open_how_val v_open_how;
  at_sqe sqe (io_uring_prep_openat2 (Int_val v_fd) (data + sizeof_open_how) data);;
  at_sqe sqe (io_uring_sqe_set_data (Long_val v_id));;
  mret Val_true.

Definition ocaml_uring_submit_close (v_uring : positive) (v_fd v_id : Z) : stub bool :=
  ring ← Ring_val v_uring;
  sqe ← io_uring_get_sqe ring;
  if bool_decide (sqe = None) then mret Val_false else
  at_sqe sqe (io_uring_prep_close (Int_val v_fd));;
  at_sqe sqe (io_uring_sqe_set_data (Long_val v_id));;
  mret Val_true.

Definition ocaml_uring_submit_poll_add (v_uring : positive) (v_fd v_id v_poll_mask : Z) : stub bool :=
  let poll_mask := Int_val v_poll_mask in
  ring ← Ring_val v_uring;
  sqe ← io_uring_get_sqe ring;
  if bool_decide (sqe = None) then mret Val_false else
  at_sqe sqe (io_uring_prep_poll_add (Int_val v_fd) poll_mask);;
  at_sqe sqe (io_uring_sqe_set_data (Long_val v_id));;
  mret Val_true.

Definition ocaml_uring_submit_readv (v_uring : positive) (v_fd v_id : Z) (v_iov : iovec_val)
    (v_off : Z) : stub bool :=
  ring ← Ring_val v_uring;
  let iovs := Z.land (iov_field0 v_iov) (Z.lnot 1) in
  let len_ := s32 (iov_wosize1 v_iov) in
  sqe ← io_uring_get_sqe ring;
  if bool_decide (sqe = None) then mret Val_false else
  at_sqe sqe (io_uring_prep_readv (Int_val v_fd) iovs len_ (Int63_val v_off));;
  at_sqe sqe (io_uring_sqe_set_data (Long_val v_id));;
  mret Val_true.

Definition ocaml_uring_submit_writev (v_uring : positive) (v_fd v_id : Z) (v_iov : iovec_val)
    (v_off : Z) : stub bool :=
  ring ← Ring_val v_uring;
  let iovs := Z.land (iov_field0 v_iov) (Z.lnot 1) in
  let len_ := s32 (iov_wosize1 v_iov) in
  sqe ← io_uring_get_sqe ring;
  if bool_decide (sqe = None) then mret Val_false else
  at_sqe sqe (io_uring_prep_writev (Int_val v_fd) iovs len_ (Int63_val v_off));;
  at_sqe sqe (io_uring_sqe_set_data (Long_val v_id));;
  mret Val_true.

Definition ocaml_uring_submit_readv_fixed_native (v_uring : positive) (v_fd v_id : Z)
    (v_ba : bigarray) (v_off v_len v_fileoff : Z) : stub bool :=
  ring ← Ring_val v_uring;
  sqe ← io_uring_get_sqe ring;
  let buf := Caml_ba_data_val v_ba + Long_val v_off in
  if bool_decide (sqe = None) then mret Val_false else
  at_sqe sqe (io_uring_prep_read_fixed (Int_val v_fd) buf (Int_val v_len) (Int63_val v_fileoff) 0);;
  at_sqe sqe (io_uring_sqe_set_data (Long_val v_id));;
  mret Val_true.

Definition ocaml_uring_submit_writev_fixed_native (v_uring : positive) (v_fd v_id : Z)
    (v_ba : bigarray) (v_off v_len v_fileoff : Z) : stub bool :=
  ring ← Ring_val v_uring;
  sqe ← io_uring_get_sqe ring;
  let buf := Caml_ba_data_val v_ba + Long_val v_off in
  if bool_decide (sqe = None) then mret Val_false else
  at_sqe sqe (io_uring_prep_write_fixed (Int_val v_fd) buf (Int_val v_len) (Int63_val v_fileoff) 0);;
  at_sqe sqe (io_uring_sqe_set_data (Long_val v_id));;
  mret Val_true.

Definition ocaml_uring_submit_splice (v_uring : positive) (v_id v_fd_in v_fd_out v_nbytes : Z)
    : stub bool :=
  ring ← Ring_val v_uring;
  sqe ← io_uring_get_sqe ring;
  if bool_decide (sqe = None) then mret Val_false else
  at_sqe sqe (io_uring_prep_splice (Int_val v_fd_in) (-1) (Int_val v_fd_out) (-1)
                                   (Int_val v_nbytes) 0);;
  at_sqe sqe (io_uring_sqe_set_data (Long_val v_id));;
  mret Val_true.

(** ** Socket addresses

    [get_sockaddr] and [alloc_sockaddr] belong to the OCaml runtime
    ([socketaddr.c] of the unix library), not to the repository.  They are
    transcribed here for Linux, on the bytes of [union sock_addr_union]:
    [sa_family] is the little-endian 16-bit word at offset 0; [sun_path]
    starts at offset 2; [sin_port] and [sin6_port] are the big-endian word at
    offset 2; [sin_addr] is at offset 4 and [sin6_addr] at offset 8. *)

(** [Unix.sockaddr]; an [inet_addr] is the string of its 4 or 16 bytes (the
    runtime reads 4 bytes of it whenever it is not 16 bytes long). *)
Inductive sockaddr :=
| ADDR_UNIX (path : list byte)
| ADDR_INET (a : list byte) (port : Z).

Definition AF_UNIX : Z := 1.
Definition AF_INET : Z := 2.
Definition AF_INET6 : Z := 10.

Definition sizeof_sock_addr_union : Z := 112.
Definition sizeof_sun_path : Z := 108.
Definition sizeof_sockaddr_in : Z := 16.
Definition sizeof_sockaddr_in6 : Z := 28.
Definition offsetof_sun_path : Z := 2.
Definition offsetof_sa_data : Z := 2.

Definition byte_of_Z (z : Z) : byte :=
  match Byte.of_N (Z.to_N (z mod 256)) with
  | Some b => b
  | None => x00
  end.

Definition Z_of_byte (b : byte) : Z := Z.of_N (Byte.to_N b).

(** A 16-bit word as it lies in memory. *)
Definition le16 (x : Z) : list byte := [byte_of_Z x; byte_of_Z (x / 256)].

Definition read16 (lo hi : nat) (buf : list byte) : Z :=
  Z_of_byte (default x00 (buf !! lo)) + 256 * Z_of_byte (default x00 (buf !! hi)).

(** [memmove(buf + off, src, length src)] inside one object. *)
Definition write_bytes (off : nat) (src buf : list byte) : list byte :=
  take off buf ++ src ++ drop (off + length src) buf.

(** [memset(buf, 0, n)] *)
Definition zero_bytes (n : nat) (buf : list byte) : list byte :=
  write_bytes 0 (replicate n x00) buf.

(** [caml_string_is_c_safe]: no NUL inside the string. *)
Definition caml_string_is_c_safe (s : list byte) : bool :=
  forallb (fun b => negb (Byte.eqb b x00)) s.

Fixpoint strnlen (s : list byte) (n : nat) {struct n} : nat :=
  match n, s with
  | S n', b :: s' => if Byte.eqb b x00 then O else S (strnlen s' n')
  | _, _ => O
  end.

(** [htons] and [ntohs] on a little-endian machine: the two bytes swapped. *)
Definition swap16 (x : Z) : Z := (x mod 256) * 256 + (x / 256) mod 256.
Definition htons (x : Z) : Z := swap16 (u16 x).
Definition ntohs (x : Z) : Z := swap16 (u16 x).

(** [get_sockaddr(mladr, &adr, &adr_len)]: the bytes and the length it
    leaves, or the error it raises. *)
Definition get_sockaddr (mladr : sockaddr) (d : sock_addr_data)
    : unix_error_exn + sock_addr_data :=
  match mladr with
  | ADDR_UNIX path =>
      let len_ := Z.of_nat (length path) in
      let adr := write_bytes 0 (le16 AF_UNIX) (sock_addr_addr d) in
      if sizeof_sun_path <=? len_ then inl (Unix_error ENAMETOOLONG "")
      else if negb (Byte.eqb (default x00 (path !! 0%nat)) x00) && negb (caml_string_is_c_safe path)
      then inl (Unix_error ENOENT "")
      else inr (SockAddrData (write_bytes 2 (path ++ [x00]) adr) (u32 (offsetof_sun_path + len_)))
  | ADDR_INET a port =>
      if Z.of_nat (length a) =? 16 then
        let adr := zero_bytes 28 (sock_addr_addr d) in
        let adr := write_bytes 0 (le16 AF_INET6) adr in
        let adr := write_bytes 8 a adr in
        let adr := write_bytes 2 (le16 (htons (Int_val port))) adr in
        inr (SockAddrData adr sizeof_sockaddr_in6)
      else
        let adr := zero_bytes 16 (sock_addr_addr d) in
        let adr := write_bytes 0 (le16 AF_INET) adr in
        let adr := write_bytes 4 (take 4 a) adr in
        let adr := write_bytes 2 (le16 (htons (Int_val port))) adr in
        inr (SockAddrData adr sizeof_sockaddr_in)
  end.

(** [alloc_sockaddr(&adr, adr_len, -1)]: the OCaml value, or the error. *)
Definition alloc_sockaddr (adr : list byte) (adr_len : Z) : unix_error_exn + sockaddr :=
  if adr_len <? offsetof_sa_data then inr (ADDR_UNIX [])
  else
    let family := read16 0 1 adr in
    if family =? AF_UNIX then
      let sun_path := drop 2 adr in
      let path_length :=
        if offsetof_sun_path <? adr_len then
          let n := Z.to_nat (adr_len - offsetof_sun_path) in
          if Byte.eqb (default x00 (sun_path !! 0%nat)) x00 then n else strnlen sun_path n
        else 0%nat in
      inr (ADDR_UNIX (take path_length sun_path))
    else if family =? AF_INET then
      inr (ADDR_INET (take 4 (drop 4 adr)) (Val_int (ntohs (read16 2 3 adr))))
    else if family =? AF_INET6 then
      inr (ADDR_INET (take 16 (drop 8 adr)) (Val_int (ntohs (read16 2 3 adr))))
    else inl (Unix_error EAFNOSUPPORT "").

Definition sock_get (p : Z) : stub sock_addr_data :=
  b ← heap_get p;
  match b with Bsock d => mret d | _ => undefined end.

Definition sock_set (p : Z) (d : sock_addr_data) : stub unit :=
  _ ← sock_get p; heap_set p (Bsock d).

Definition lift_error {A} (r : unix_error_exn + A) : stub A :=
  match r with
  | inl e => fun w => Raises e w
  | inr a => mret a
  end.

(** [junk] is what the fresh block happens to contain. *)
Definition ocaml_uring_make_sockaddr (junk : sock_addr_data) (v_sockaddr : sockaddr)
    : stub positive :=
  v ← caml_alloc_custom_mem;
  custom_set v NULL;;
  data ← caml_stat_alloc (Bsock junk);
  custom_set v data;;
  d ← sock_get data;
  d' ← lift_error (get_sockaddr v_sockaddr d);
  sock_set data d';;
  mret v.

Definition ocaml_uring_extract_sockaddr (v : positive) : stub sockaddr :=
  data ← Sock_addr_val v;
  d ← sock_get data;
  v_sockaddr ← lift_error (alloc_sockaddr (sock_addr_addr d) (sock_addr_len d));
  mret v_sockaddr.

Definition ocaml_uring_submit_connect (v_uring : positive) (v_id v_fd : Z) (v_sockaddr : positive)
    : stub bool :=
  ring ← Ring_val v_uring;
  addr_ ← Sock_addr_val v_sockaddr;
  sqe ← io_uring_get_sqe ring;
  if bool_decide (sqe = None) then mret Val_false else
  d ← sock_get addr_;
  at_sqe sqe (io_uring_prep_connect (Int_val v_fd) addr_ (sock_addr_len d));;
  at_sqe sqe (io_uring_sqe_set_data (Long_val v_id));;
  mret Val_true.

Definition ocaml_uring_submit_accept (v_uring : positive) (v_id v_fd : Z) (v_sockaddr : positive)
    : stub bool :=
  ring ← Ring_val v_uring;
  addr_ ← Sock_addr_val v_sockaddr;
  d ← sock_get addr_;
  sock_set addr_ (SockAddrData (sock_addr_addr d) sizeof_sock_addr_union);;
  sqe ← io_uring_get_sqe ring;
  if bool_decide (sqe = None) then mret Val_false else
  at_sqe sqe (io_uring_prep_accept (Int_val v_fd) addr_ (addr_ + sizeof_sock_addr_union)
                                   SOCK_CLOEXEC);;
  at_sqe sqe (io_uring_sqe_set_data (Long_val v_id));;
  mret Val_true.

Definition ocaml_uring_submit_cancel (v_uring : positive) (v_id v_target : Z) : stub bool :=
  ring ← Ring_val v_uring;
  sqe ← io_uring_get_sqe ring;
  if bool_decide (sqe = None) then mret Val_false else
  at_sqe sqe (io_uring_prep_cancel (Long_val v_target) 0);;
  at_sqe sqe (io_uring_sqe_set_data (Long_val v_id));;
  mret Val_true.

Definition ocaml_uring_submit (kret : Z) (posted : list io_uring_cqe) (v_uring : positive)
    : stub Z :=
  ring ← Ring_val v_uring;
  num ← io_uring_submit kret posted ring;
  mret (Val_int num).

(** ** Completion retrieval *)

Definition Val_cqe_none : option (Z * Z) := None.
Definition Val_cqe_some (id res : Z) : option (Z * Z) := Some (id, res).

(** The timeout is a C [double], an IEEE 754 binary64 number: sign,
    mantissa and exponent, an infinity or a NaN.  The arithmetic on doubles
    rounds to the nearest, ties to even. *)
Definition double : Type := spec_float.

Definition double_sub : double -> double -> double := SFsub 53 1024.
Definition double_mul : double -> double -> double := SFmul 53 1024.

(** The conversion of a 64-bit integer to a double. *)
Definition double_of_s64 (n : Z) : double := binary_normalize 53 1024 n 0 false.

(** The conversion of a double to a 64-bit integer: the fraction is dropped.
    For a NaN, an infinity or a number out of the range of the integer, C
    leaves the result open; the conversion instruction of the 64-bit x86
    targets gives the least integer. *)
Definition s64_of_double (x : double) : Z :=
  match x with
  | S754_zero _ => 0
  | S754_finite s m e =>
      let mag := if 0 <=? e then Z.pos m * 2 ^ e else Z.pos m / 2 ^ (- e) in
      let n := if s then - mag else mag in
      if (- 2 ^ 63 <=? n) && (n <? 2 ^ 63) then n else - 2 ^ 63
  | _ => - 2 ^ 63
  end.

(** The constant [1e9]. *)
Definition double_1e9 : double := Eval cbv in double_of_s64 (10 ^ 9).

(** [t.tv_sec = (time_t) timeout; t.tv_nsec = (timeout - t.tv_sec) * 1e9;]
    The time only reaches the kernel, whose reply is an argument. *)
Definition timespec_of (timeout : double) : Z * Z :=
  let tv_sec := s64_of_double timeout in
  let tv_nsec :=
    s64_of_double (double_mul (double_sub timeout (double_of_s64 tv_sec)) double_1e9) in
  (tv_sec, tv_nsec).

(** In the three functions below, [late] are the completions that the
    kernel posts after [io_uring_cqe_seen] has published the new head and
    before [cqe->res] is read, the kernel running concurrently with the stub. *)
Definition ocaml_uring_wait_cqe_timeout (k : kernel_reply) (late : list io_uring_cqe)
    (v_timeout : double) (v_uring : positive) : stub (option (Z * Z)) :=
  let t := timespec_of v_timeout in
  ring ← Ring_val v_uring;
  '(res, cqe) ← io_uring_wait_cqe_timeout t k ring;
  if res <? 0 then
    if (res =? - EAGAIN) || (res =? - EINTR) || (res =? - ETIME) then
      mret Val_cqe_none
    else
      unix_error (- res) "io_uring_wait_cqe_timeout"
  else
    data ← io_uring_cqe_get_data cqe;
    let id := s64 data in
    io_uring_cqe_seen ring cqe;;
    kernel_posts ring late;;
    cqe_res ← cqe_get_res cqe;
    mret (Val_cqe_some (Val_int id) (Val_int cqe_res)).

Definition ocaml_uring_wait_cqe (k : kernel_reply) (late : list io_uring_cqe)
    (v_uring : positive) : stub (option (Z * Z)) :=
  ring ← Ring_val v_uring;
  '(res, cqe) ← io_uring_wait_cqe k ring;
  if res <? 0 then
    if (res =? - EAGAIN) || (res =? - EINTR) then
      mret Val_cqe_none
    else
      unix_error (- res) "io_uring_wait_cqe"
  else
    data ← io_uring_cqe_get_data cqe;
    let id := s64 data in
    io_uring_cqe_seen ring cqe;;
    kernel_posts ring late;;
    cqe_res ← cqe_get_res cqe;
    mret (Val_cqe_some (Val_int id) (Val_int cqe_res)).

Definition ocaml_uring_peek_cqe (k : kernel_reply) (late : list io_uring_cqe)
    (v_uring : positive) : stub (option (Z * Z)) :=
  ring ← Ring_val v_uring;
  '(res, cqe) ← io_uring_peek_cqe k ring;
  if res <? 0 then
    if (res =? - EAGAIN) || (res =? - EINTR) then
      mret Val_cqe_none
    else
      unix_error (- res) "io_uring_peek_cqe"
  else
    data ← io_uring_cqe_get_data cqe;
    let id := s64 data in
    io_uring_cqe_seen ring cqe;;
    kernel_posts ring late;;
    cqe_res ← cqe_get_res cqe;
    mret (Val_cqe_some (Val_int id) (Val_int cqe_res)).

(** ** Worlds in which a handle is usable *)

(** The ring handle [v] holds the address [p] of a live [struct io_uring]. *)
Definition live_ring (w : world) (v : positive) (p : Z) (r : io_uring) : Prop :=
  customs w !! v = Some p /\ p <> NULL /\ c_heap w !! p = Some (Bring r).

(** The ring handle [v] has been torn down: it holds the null pointer. *)
Definition torn_down (w : world) (v : positive) : Prop :=
  customs w !! v = Some NULL.

(** The socket-address handle [v] holds the address [q] of its data. *)
Definition live_sockaddr (w : world) (v : positive) (q : Z) (d : sock_addr_data) : Prop :=
  customs w !! v = Some q /\ q <> NULL /\ c_heap w !! q = Some (Bsock d).

Definition sq_wf (s : io_uring_sq) : Prop :=
  0 <= sqe_tail s /\ 0 <= sq_kring_mask s /\ sq_kring_mask s < Z.of_nat (length (sqes s)).


Definition with_block (w : world) (p : Z) (b : cblock) : world :=
  World (customs w) (<[p := b]> (c_heap w)) (trace w).

Definition with_ring (w : world) (p : Z) (r : io_uring) : world := with_block w p (Bring r).
Definition with_sock (w : world) (q : Z) (d : sock_addr_data) : world := with_block w q (Bsock d).

(** The slot that [io_uring_get_sqe] hands out, and the ring once an entry
    [e] has been written there. *)
Definition sq_slot (s : io_uring_sq) : nat := Z.to_nat (Z.land (sqe_tail s) (sq_kring_mask s)).

Definition sq_push (s : io_uring_sq) (e : io_uring_sqe) : io_uring_sq :=
  Sq (sq_khead s) (sq_ktail s) (sq_kring_mask s) (sq_kring_entries s) (sqe_head s)
     (u32 (sqe_tail s + 1)) (<[sq_slot s := e]> (sqes s)).

(** ** Operation kinds *)

(** The operations of the encoder, with the arguments each stub takes
    besides the ring and the correlation id. *)
Inductive operation :=
| Op_nop
| Op_openat2 (v_fd : Z) (v_open_how : positive)
| Op_close (v_fd : Z)
| Op_poll_add (v_fd v_poll_mask : Z)
| Op_readv (v_fd : Z) (v_iov : iovec_val) (v_off : Z)
| Op_writev (v_fd : Z) (v_iov : iovec_val) (v_off : Z)
| Op_readv_fixed (v_fd : Z) (v_ba : bigarray) (v_off v_len v_fileoff : Z)
| Op_writev_fixed (v_fd : Z) (v_ba : bigarray) (v_off v_len v_fileoff : Z)
| Op_splice (v_fd_in v_fd_out v_nbytes : Z)
| Op_connect (v_fd : Z) (v_sockaddr : positive)
| Op_accept (v_fd : Z) (v_sockaddr : positive)
| Op_cancel (v_target : Z).

(** The stub of each kind. *)
Definition encode (op : operation) (v_uring : positive) (v_id : Z) : stub bool :=
  match op with
  | Op_nop => ocaml_uring_submit_nop v_uring v_id
  | Op_openat2 v_fd v_open_how => ocaml_uring_submit_openat2 v_uring v_id v_fd v_open_how
  | Op_close v_fd => ocaml_uring_submit_close v_uring v_fd v_id
  | Op_poll_add v_fd v_poll_mask => ocaml_uring_submit_poll_add v_uring v_fd v_id v_poll_mask
  | Op_readv v_fd v_iov v_off => ocaml_uring_submit_readv v_uring v_fd v_id v_iov v_off
  | Op_writev v_fd v_iov v_off => ocaml_uring_submit_writev v_uring v_fd v_id v_iov v_off
  | Op_readv_fixed v_fd v_ba v_off v_len v_fileoff =>
      ocaml_uring_submit_readv_fixed_native v_uring v_fd v_id v_ba v_off v_len v_fileoff
  | Op_writev_fixed v_fd v_ba v_off v_len v_fileoff =>
      ocaml_uring_submit_writev_fixed_native v_uring v_fd v_id v_ba v_off v_len v_fileoff
  | Op_splice v_fd_in v_fd_out v_nbytes =>
      ocaml_uring_submit_splice v_uring v_id v_fd_in v_fd_out v_nbytes
  | Op_connect v_fd v_sockaddr => ocaml_uring_submit_connect v_uring v_id v_fd v_sockaddr
  | Op_accept v_fd v_sockaddr => ocaml_uring_submit_accept v_uring v_id v_fd v_sockaddr
  | Op_cancel v_target => ocaml_uring_submit_cancel v_uring v_id v_target
  end.

(** The resource handles an operation names are usable in [w]. *)
Definition handles_ok (w : world) (op : operation) : Prop :=
  match op with
  | Op_openat2 _ v_open_how => is_Some (customs w !! v_open_how)
  | Op_connect _ v_sockaddr | Op_accept _ v_sockaddr =>
      exists q d, live_sockaddr w v_sockaddr q d
  | _ => True
  end.

(** [n] calls of teardown in a row on the same handle. *)
Fixpoint teardown_times (n : nat) (v_uring : positive) : stub unit :=
  match n with
  | O => mret Val_unit
  | S n' => ocaml_uring_exit v_uring;; teardown_times n' v_uring
  end.

(** The world after the teardown of a live ring. *)
Definition after_exit (w : world) (v : positive) (p : Z) (r : io_uring) : world :=
  World (<[v := NULL]> (customs w)) (delete p (c_heap w))
        (trace w ++ [Ev_queue_exit (ring_fd r); Ev_stat_free p]).

(** ** What an encoder leaves behind *)

Definition sqe_blank : io_uring_sqe := Sqe 0 0 0 0 0 0 0 0 0 0 0 0 0 0.

(** [f] assigns every field of the entry: the result does not depend on
    what the slot held. *)
Definition overwrites (f : io_uring_sqe -> io_uring_sqe) : Prop :=
  forall e, f e = f sqe_blank.

Definition handle_ptr (w : world) (v : positive) : Z := default NULL (customs w !! v).

Definition handle_sock (w : world) (v : positive) : sock_addr_data :=
  match c_heap w !! handle_ptr w v with
  | Some (Bsock d) => d
  | _ => SockAddrData [] 0
  end.

(** What accept does to its handle before it asks for a slot. *)
Definition presized (w : world) (v_sockaddr : positive) : world :=
  with_sock w (handle_ptr w v_sockaddr)
    (SockAddrData (sock_addr_addr (handle_sock w v_sockaddr)) sizeof_sock_addr_union).

(** The state in which an encoder asks for a slot. *)
Definition before_slot (op : operation) (w : world) : world :=
  match op with
  | Op_accept _ v_sockaddr => presized w v_sockaddr
  | _ => w
  end.

(** The entry each kind of operation leaves in its slot. *)
Definition entry_of (op : operation) (v_id : Z) (w : world) : io_uring_sqe :=
  io_uring_sqe_set_data (Long_val v_id)
    (match op with
     | Op_nop => io_uring_prep_nop
     | Op_openat2 v_fd v_open_how =>
         let data := handle_ptr w v_open_how in
         io_uring_prep_openat2 (Int_val v_fd) (data + sizeof_open_how) data
     | Op_close v_fd => io_uring_prep_close (Int_val v_fd)
     | Op_poll_add v_fd v_poll_mask => io_uring_prep_poll_add (Int_val v_fd) (Int_val v_poll_mask)
     | Op_readv v_fd v_iov v_off =>
         io_uring_prep_readv (Int_val v_fd) (Z.land (iov_field0 v_iov) (Z.lnot 1))
                             (s32 (iov_wosize1 v_iov)) (Int63_val v_off)
     | Op_writev v_fd v_iov v_off =>
         io_uring_prep_writev (Int_val v_fd) (Z.land (iov_field0 v_iov) (Z.lnot 1))
                              (s32 (iov_wosize1 v_iov)) (Int63_val v_off)
     | Op_readv_fixed v_fd v_ba v_off v_len v_fileoff =>
         io_uring_prep_read_fixed (Int_val v_fd) (Caml_ba_data_val v_ba + Long_val v_off)
                                  (Int_val v_len) (Int63_val v_fileoff) 0
     | Op_writev_fixed v_fd v_ba v_off v_len v_fileoff =>
         io_uring_prep_write_fixed (Int_val v_fd) (Caml_ba_data_val v_ba + Long_val v_off)
                                   (Int_val v_len) (Int63_val v_fileoff) 0
     | Op_splice v_fd_in v_fd_out v_nbytes =>
         io_uring_prep_splice (Int_val v_fd_in) (-1) (Int_val v_fd_out) (-1) (Int_val v_nbytes) 0
     | Op_connect v_fd v_sockaddr =>
         io_uring_prep_connect (Int_val v_fd) (handle_ptr w v_sockaddr)
                               (sock_addr_len (handle_sock w v_sockaddr))
     | Op_accept v_fd v_sockaddr =>
         let a := handle_ptr w v_sockaddr in
         io_uring_prep_accept (Int_val v_fd) a (a + sizeof_sock_addr_union) SOCK_CLOEXEC
     | Op_cancel v_target => io_uring_prep_cancel (Long_val v_target) 0
     end sqe_blank).

Definition sq_reserve (s : io_uring_sq) : io_uring_sq := set_sqe_tail s (u32 (sqe_tail s + 1)).

(** ** The three retrievals *)

(** The three ways to retrieve a completion. *)
Inductive retrieval :=
| Wait
| Wait_timeout (v_timeout : double)
| Peek.

Definition retrieve (m : retrieval) (k : kernel_reply) (late : list io_uring_cqe)
    (v_uring : positive) : stub (option (Z * Z)) :=
  match m with
  | Wait => ocaml_uring_wait_cqe k late v_uring
  | Wait_timeout v_timeout => ocaml_uring_wait_cqe_timeout k late v_timeout v_uring
  | Peek => ocaml_uring_peek_cqe k late v_uring
  end.

(** The liburing call behind each of them, and the name it is reported under. *)
Definition lib_call (m : retrieval) (k : kernel_reply) (ring : Z) : stub (Z * slot_ptr) :=
  match m with
  | Wait => io_uring_wait_cqe k ring
  | Wait_timeout v_timeout => io_uring_wait_cqe_timeout (timespec_of v_timeout) k ring
  | Peek => io_uring_peek_cqe k ring
  end.

Definition lib_name (m : retrieval) : string :=
  match m with
  | Wait => "io_uring_wait_cqe"
  | Wait_timeout _ => "io_uring_wait_cqe_timeout"
  | Peek => "io_uring_peek_cqe"
  end.

(** The return codes a retrieval turns into "no completion". *)
Definition recognised (m : retrieval) (ret : Z) : bool :=
  match m with
  | Wait_timeout _ => (ret =? - EAGAIN) || (ret =? - EINTR) || (ret =? - ETIME)
  | _ => (ret =? - EAGAIN) || (ret =? - EINTR)
  end.

(** The completion ring once the kernel has posted [cs]. *)
Definition cq_after (cs : list io_uring_cqe) (c : io_uring_cq) : io_uring_cq :=
  fold_left kernel_post cs c.

(** The completion ring once its oldest entry has been marked seen. *)
Definition cq_seen (c : io_uring_cq) : io_uring_cq := set_cq_khead c (u32 (cq_khead c + 1)).

(** The correlation id as the stubs return it. *)
Definition id_of (c : io_uring_cqe) : Z := Val_int (s64 (u64 (cqe_user_data c))).

(** The result field of slot [i]. *)
Definition res_at (c : io_uring_cq) (i : nat) : Z :=
  match cqes c !! i with
  | Some x => cqe_res x
  | None => 0
  end.

(** The branch the three retrieval stubs share once the liburing call has
    succeeded. *)
Definition consume (ring : Z) (cqe : slot_ptr) (late : list io_uring_cqe)
    : stub (option (Z * Z)) :=
  data ← io_uring_cqe_get_data cqe;
  let id := s64 data in
  io_uring_cqe_seen ring cqe;;
  kernel_posts ring late;;
  cqe_res ← cqe_get_res cqe;
  mret (Val_cqe_some (Val_int id) (Val_int cqe_res)).

(** ** Socket addresses that the runtime represents *)

(** The values of [Unix.sockaddr] that denote a native socket address: a
    path that fits [sun_path] and is a C string or an abstract name, or an
    internet address of 4 or 16 bytes with a 16-bit port. *)
Definition valid_sockaddr (a : sockaddr) : Prop :=
  match a with
  | ADDR_UNIX path =>
      Z.of_nat (length path) < sizeof_sun_path /\
      (Byte.eqb (default x00 (path !! 0%nat)) x00 || caml_string_is_c_safe path = true)
  | ADDR_INET a port =>
      (length a = 4%nat \/ length a = 16%nat) /\ 0 <= port < 65536
  end.

Definition family_of (a : sockaddr) : Z :=
  match a with
  | ADDR_UNIX _ => AF_UNIX
  | ADDR_INET a _ => if Z.of_nat (length a) =? 16 then AF_INET6 else AF_INET
  end.

(** The length of the native address: [offsetof(sun_path)] plus the path,
    or the size of the internet structure. *)
Definition native_length (a : sockaddr) : Z :=
  match a with
  | ADDR_UNIX path => offsetof_sun_path + Z.of_nat (length path)
  | ADDR_INET a _ => if Z.of_nat (length a) =? 16 then sizeof_sockaddr_in6 else sizeof_sockaddr_in
  end.

(** ** Example worlds *)

(** A ring of two submission slots and four completion slots at address
    4096, held by the handle 1. *)
Definition ex_cqes_blank : list io_uring_cqe := [Cqe 0 0 0; Cqe 0 0 0; Cqe 0 0 0; Cqe 0 0 0].

Definition ex_ring : io_uring :=
  Ring (Sq 0 0 1 2 0 0 [sqe_blank; sqe_blank]) (Cq 0 0 3 4 ex_cqes_blank) 5.

Definition ex_world : world :=
  World {[ 1%positive := 4096 ]} {[ 4096 := Bring ex_ring ]} [].

(** The same handle after teardown. *)
Definition ex_world_down : world :=
  World {[ 1%positive := NULL ]} ∅ [Ev_queue_exit 5; Ev_stat_free 4096].

(** The submission ring full (two entries prepared, none consumed), and a
    socket-address handle 2 whose stored length is 16. *)
Definition ex_ring_sq_full : io_uring :=
  Ring (Sq 0 0 1 2 0 2 [sqe_blank; sqe_blank]) (Cq 0 0 3 4 ex_cqes_blank) 5.

Definition ex_sock : sock_addr_data := SockAddrData (replicate 112 x00) 16.

Definition ex_world_sq_full : world :=
  World {[ 1%positive := 4096; 2%positive := 8192 ]}
        {[ 4096 := Bring ex_ring_sq_full; 8192 := Bsock ex_sock ]} [].

(** The completion ring full of unseen completions, the oldest being
    (id 7, result 11). *)
Definition ex_ring_cq_full : io_uring :=
  Ring (Sq 0 0 1 2 0 0 [sqe_blank; sqe_blank])
       (Cq 0 4 3 4 [Cqe 7 11 0; Cqe 8 12 0; Cqe 9 13 0; Cqe 10 14 0]) 5.

Definition ex_world_cq_full : world :=
  World {[ 1%positive := 4096 ]} {[ 4096 := Bring ex_ring_cq_full ]} [].



(** The doubles 0.5, and 2.3 as the nearest double. *)
Definition double_half : double := S754_finite false 4503599627370496 (-53).
Definition double_2_3 : double := S754_finite false 5179139571476070 (-51).

(** ** Setup and the finalisers *)

(** What the kernel answers to [io_uring_queue_init]: the ring it has set
    up, or an error number. *)
Inductive init_reply :=
| Init_ok (r : io_uring)
| Init_errno (e : positive).

(** [io_uring_queue_init(entries, ring, 0)]: fills [*ring] and returns 0, or
    returns a negated error number. *)
Definition io_uring_queue_init (k : init_reply) (entries : Z) (ring : Z) : stub Z :=
  _ ← ring_get ring;
  match k with
  | Init_ok r => ring_set ring r;; mret 0
  | Init_errno e => mret (Z.neg e)
  end.

(** [junk] is what the fresh [struct io_uring] happens to contain. *)
Definition ocaml_uring_setup (junk : io_uring) (k : init_reply) (entries : Z) : stub positive :=
  ring ← caml_stat_alloc (Bring junk);
  status ← io_uring_queue_init k (u32 (Long_val entries)) ring;
  if status =? 0 then
    v_uring ← caml_alloc_custom_mem;
    custom_set v_uring ring;;
    mret v_uring
  else unix_error (- status) "io_uring_queue_init".

(** The finalisers the garbage collector runs on a handle that is no longer
    reachable. *)
Definition finalize_open_how (v : positive) : stub unit :=
  p ← Open_how_val v;
  caml_stat_free p;;
  custom_set v NULL.

Definition finalize_sock_addr (v : positive) : stub unit :=
  p ← Sock_addr_val v;
  caml_stat_free p;;
  custom_set v NULL.

(** The bytecode entry points of the fixed-buffer encoders: the seven
    arguments arrive in an array. *)
Record fixed_args := FixedArgs {
  fa_uring : positive;
  fa_fd : Z;
  fa_id : Z;
  fa_ba : bigarray;
  fa_off : Z;
  fa_len : Z;
  fa_fileoff : Z
}.

Definition ocaml_uring_submit_readv_fixed_byte (values : fixed_args) (argc : Z) : stub bool :=
  ocaml_uring_submit_readv_fixed_native (fa_uring values) (fa_fd values) (fa_id values)
    (fa_ba values) (fa_off values) (fa_len values) (fa_fileoff values).

Definition ocaml_uring_submit_writev_fixed_byte (values : fixed_args) (argc : Z) : stub bool :=
  ocaml_uring_submit_writev_fixed_native (fa_uring values) (fa_fd values) (fa_id values)
    (fa_ba values) (fa_off values) (fa_len values) (fa_fileoff values).

(** ** Sequences of calls *)

(** A caller that encodes a list of operations, one after the other, on
    the same ring, and collects the answers. *)
Fixpoint encode_list (ops : list (operation * Z)) (v_uring : positive) : stub (list bool) :=
  match ops with
  | [] => mret []
  | (op, v_id) :: rest =>
      b ← encode op v_uring v_id;
      bs ← encode_list rest v_uring;
      mret (b :: bs)
  end.

(** The entries prepared and not yet consumed by the kernel, as
    [io_uring_get_sqe] counts them. *)
Definition sq_pending (s : io_uring_sq) : Z := u32 (sqe_tail s - sq_khead s).

(** ** Frames, offsets and the completion queue *)

(** Socket-address blocks of [w] are still socket-address blocks in [w'],
    with the same bytes. *)
Definition socks_kept (w w' : world) : Prop :=
  forall q d, c_heap w !! q = Some (Bsock d) ->
    exists d', c_heap w' !! q = Some (Bsock d') /\ sock_addr_addr d' = sock_addr_addr d.

(** The block, besides the ring, that an encoder may write: the handle of
    accept. *)
Definition written_handle (op : operation) (w : world) : option Z :=
  match op with
  | Op_accept _ v_sockaddr => Some (handle_ptr w v_sockaddr)
  | _ => None
  end.

(** The file offset an operation carries, for the kinds that have one. *)
Definition file_offset (op : operation) : option Z :=
  match op with
  | Op_readv _ _ v_off | Op_writev _ _ v_off => Some v_off
  | Op_readv_fixed _ _ _ _ v_fileoff | Op_writev_fixed _ _ _ _ v_fileoff => Some v_fileoff
  | _ => None
  end.

(** ** The completion ring as a queue *)

(** The number of completions posted and not yet marked seen. *)
Definition cq_count (c : io_uring_cq) : Z := u32 (cq_ktail c - cq_khead c).

(** The slot of the completion numbered [x]. *)
Definition cq_slot (c : io_uring_cq) (x : Z) : nat := Z.to_nat (Z.land x (cq_kring_mask c)).

(** The completions posted and not yet marked seen, oldest first: the slots
    from [khead] to [ktail]. *)
Definition cq_unseen (c : io_uring_cq) : list io_uring_cqe :=
  map (fun j => default (Cqe 0 0 0) (cqes c !! cq_slot c (cq_khead c + Z.of_nat j)))
      (seq 0 (Z.to_nat (cq_count c))).

(** A completion ring of [2^k] slots as the kernel lays it out, holding at
    most that many unseen completions. *)
Definition cq_inv (k : Z) (c : io_uring_cq) : Prop :=
  0 <= k <= 31 /\
  cq_kring_mask c = 2 ^ k - 1 /\
  cq_kring_entries c = 2 ^ k /\
  Z.of_nat (length (cqes c)) = 2 ^ k /\
  0 <= cq_khead c < 2 ^ 32 /\
  0 <= cq_ktail c < 2 ^ 32 /\
  cq_count c <= 2 ^ k.

(** What a retrieval returns for a completion. *)
Definition pair_of (x : io_uring_cqe) : option (Z * Z) :=
  Val_cqe_some (id_of x) (Val_int (cqe_res x)).

(** [n] peeks in a row on the same ring. *)
Fixpoint drain (n : nat) (v_uring : positive) : stub (list (option (Z * Z))) :=
  match n with
  | O => mret []
  | S n' =>
      x ← ocaml_uring_peek_cqe (Kposted []) [] v_uring;
      xs ← drain n' v_uring;
      mret (x :: xs)
  end.

(** * Facts

    Everything below is proved about the definitions above. *)

(** ** Machine integers *)

Section IntFacts.

Lemma wrap_unsigned_range bits x : 0 <= bits -> 0 <= wrap_unsigned bits x < 2 ^ bits.
Proof. intros Hb. unfold wrap_unsigned. apply Z.mod_pos_bound. apply Z.pow_pos_nonneg; lia. Qed.

Lemma wrap_unsigned_small bits x : 0 <= x < 2 ^ bits -> wrap_unsigned bits x = x.
Proof. intros Hx. unfold wrap_unsigned. apply Z.mod_small. exact Hx. Qed.

Lemma wrap_signed_small bits x :
  0 < bits -> - 2 ^ (bits - 1) <= x < 2 ^ (bits - 1) -> wrap_signed bits x = x.
Proof.
  intros Hb Hx. unfold wrap_signed.
  assert (Hp : 2 ^ bits = 2 * 2 ^ (bits - 1)).
  { replace bits with (Z.succ (bits - 1)) at 1 by lia. apply Z.pow_succ_r. lia. }
  rewrite Z.mod_small by lia. lia.
Qed.

(** Reading back as signed what was stored as unsigned gives the signed value. *)
Lemma wrap_signed_unsigned bits x :
  0 < bits -> wrap_signed bits (wrap_unsigned bits x) = wrap_signed bits x.
Proof.
  intros Hb. unfold wrap_signed, wrap_unsigned.
  assert (0 < 2 ^ bits) by (apply Z.pow_pos_nonneg; lia).
  f_equal. rewrite Zplus_mod_idemp_l. reflexivity.
Qed.


Lemma wrap_unsigned_signed bits x :
  0 < bits -> wrap_unsigned bits (wrap_signed bits x) = wrap_unsigned bits x.
Proof.
  intros Hb. unfold wrap_signed, wrap_unsigned.
  assert (0 < 2 ^ bits) by (apply Z.pow_pos_nonneg; lia).
  rewrite Zminus_mod_idemp_l. f_equal. lia.
Qed.

Lemma wrap_signed_range bits x :
  0 < bits -> - 2 ^ (bits - 1) <= wrap_signed bits x < 2 ^ (bits - 1).
Proof.
  intros Hb. unfold wrap_signed.
  assert (Hp : 2 ^ bits = 2 * 2 ^ (bits - 1)).
  { replace bits with (Z.succ (bits - 1)) at 1 by lia. apply Z.pow_succ_r. lia. }
  assert (0 < 2 ^ bits) by (apply Z.pow_pos_nonneg; lia).
  pose proof (Z.mod_pos_bound (x + 2 ^ (bits - 1)) (2 ^ bits)). lia.
Qed.

Lemma wrap_signed_idem bits x :
  0 < bits -> wrap_signed bits (wrap_signed bits x) = wrap_signed bits x.
Proof. intros Hb. apply wrap_signed_small; [exact Hb|]. apply wrap_signed_range, Hb. Qed.

End IntFacts.

(** ** Running a stub step by step *)

(** Expose the first bind of the stub in the goal. *)
Ltac bind_step := unfold mbind at 1, stub_bind at 1.

(** Expose the first bind and run its first computation with the equation [H]. *)
Tactic Notation "run" open_constr(H) := bind_step; rewrite H.

(** ** Basic facts about the store *)

Section Store.
Implicit Types (w : world) (p q : Z) (r : io_uring) (v : positive).

Lemma world_eta w : World (customs w) (c_heap w) (trace w) = w.
Proof. destruct w; reflexivity. Qed.

Lemma with_block_same w p b : c_heap w !! p = Some b -> with_block w p b = w.
Proof.
  intros H. unfold with_block. rewrite insert_id by exact H. apply world_eta.
Qed.

Lemma with_block_twice w p b1 b2 : with_block (with_block w p b1) p b2 = with_block w p b2.
Proof. unfold with_block; simpl. rewrite insert_insert_eq. reflexivity. Qed.

Lemma with_block_lookup w p b : c_heap (with_block w p b) !! p = Some b.
Proof. unfold with_block; simpl. apply lookup_insert_eq. Qed.

Lemma with_block_lookup_ne w p q b : p <> q -> c_heap (with_block w p b) !! q = c_heap w !! q.
Proof. intros H. unfold with_block; simpl. apply lookup_insert_ne. exact H. Qed.

Lemma heap_get_live w p b : p <> NULL -> c_heap w !! p = Some b -> heap_get p w = Returns b w.
Proof.
  intros Hp Hb. unfold heap_get. destruct (Z.eqb_spec p NULL) as [E|_]; [contradiction|].
  rewrite Hb. reflexivity.
Qed.

Lemma heap_get_null w : heap_get NULL w = Undefined.
Proof. reflexivity. Qed.

Lemma heap_set_live w p b b' :
  p <> NULL -> c_heap w !! p = Some b -> heap_set p b' w = Returns tt (with_block w p b').
Proof.
  intros Hp Hb. unfold heap_set. destruct (Z.eqb_spec p NULL) as [E|_]; [contradiction|].
  rewrite Hb. reflexivity.
Qed.

Lemma ring_get_live w p r :
  p <> NULL -> c_heap w !! p = Some (Bring r) -> ring_get p w = Returns r w.
Proof.
  intros Hp Hr. unfold ring_get, mbind, stub_bind. rewrite (heap_get_live _ _ _ Hp Hr).
  reflexivity.
Qed.

Lemma ring_get_null w : ring_get NULL w = Undefined.
Proof. reflexivity. Qed.

Lemma ring_set_live w p r r' :
  p <> NULL -> c_heap w !! p = Some (Bring r) ->
  ring_set p r' w = Returns tt (with_ring w p r').
Proof.
  intros Hp Hr. unfold ring_set, mbind, stub_bind. rewrite (ring_get_live _ _ _ Hp Hr).
  apply (heap_set_live _ _ _ _ Hp Hr).
Qed.

Lemma sock_get_live w q d :
  q <> NULL -> c_heap w !! q = Some (Bsock d) -> sock_get q w = Returns d w.
Proof.
  intros Hq Hd. unfold sock_get, mbind, stub_bind. rewrite (heap_get_live _ _ _ Hq Hd).
  reflexivity.
Qed.

Lemma sock_set_live w q d d' :
  q <> NULL -> c_heap w !! q = Some (Bsock d) ->
  sock_set q d' w = Returns tt (with_sock w q d').
Proof.
  intros Hq Hd. unfold sock_set, mbind, stub_bind. rewrite (sock_get_live _ _ _ Hq Hd).
  apply (heap_set_live _ _ _ _ Hq Hd).
Qed.

Lemma sock_get_cases w q :
  (exists d, q <> NULL /\ c_heap w !! q = Some (Bsock d) /\ sock_get q w = Returns d w)
  \/ sock_get q w = Undefined.
Proof.
  unfold sock_get, mbind, stub_bind, heap_get.
  destruct (Z.eqb_spec q NULL) as [E|Hq]; [right; reflexivity|].
  destruct (c_heap w !! q) as [[r|d|d]|] eqn:Hb; try (right; reflexivity).
  left. exists d. split; [exact Hq|]. split; reflexivity.
Qed.

Lemma custom_get_some w v p : customs w !! v = Some p -> custom_get v w = Returns p w.
Proof. intros H. unfold custom_get. rewrite H. reflexivity. Qed.

Lemma land_slot_lt x m (l : nat) :
  0 <= x -> 0 <= m -> m < Z.of_nat l -> (Z.to_nat (Z.land x m) < l)%nat.
Proof.
  intros Hx Hm Hl.
  assert (Hle : Z.land x m <= m).
  { rewrite <- (Z2N.id x), <- (Z2N.id m) by assumption.
    rewrite <- N2Z.inj_land. apply N2Z.inj_le. apply N.land_le_r. }
  assert (0 <= Z.land x m) by (apply Z.land_nonneg; left; exact Hx).
  lia.
Qed.

Lemma sq_slot_lt s : sq_wf s -> (sq_slot s < length (sqes s))%nat.
Proof. intros (Ht & Hm & Hl). apply land_slot_lt; assumption. Qed.

End Store.

(** ** Teardown *)

Section Teardown.
Implicit Types (w : world) (p : Z) (r : io_uring) (v : positive).

Lemma exit_live w v p r :
  live_ring w v p r -> ocaml_uring_exit v w = Returns Val_unit (after_exit w v p r).
Proof.
  intros (Hv & Hp & Hr).
  unfold ocaml_uring_exit, Ring_val, mbind, stub_bind.
  rewrite (custom_get_some _ _ _ Hv).
  destruct (Z.eqb_spec p NULL) as [E|_]; [contradiction|]. simpl.
  unfold io_uring_queue_exit, mbind, stub_bind.
  rewrite (ring_get_live _ _ _ Hp Hr). unfold emit.
  unfold caml_stat_free; simpl.
  destruct (Z.eqb_spec p NULL) as [E|_]; [contradiction|].
  rewrite Hr. unfold custom_set; simpl. rewrite Hv.
  unfold after_exit. simpl. rewrite <- app_assoc. reflexivity.
Qed.

Lemma exit_torn_down w v : torn_down w v -> ocaml_uring_exit v w = Returns Val_unit w.
Proof.
  intros Hv. unfold ocaml_uring_exit, Ring_val, mbind, stub_bind.
  rewrite (custom_get_some _ _ _ Hv). reflexivity.
Qed.

Lemma after_exit_torn_down w v p r : torn_down (after_exit w v p r) v.
Proof. unfold torn_down, after_exit; simpl. apply lookup_insert_eq. Qed.

Lemma teardown_times_torn_down n w v :
  torn_down w v -> teardown_times n v w = Returns Val_unit w.
Proof.
  intros Hv. induction n as [|n IH]; [reflexivity|].
  simpl. unfold mbind, stub_bind. rewrite (exit_torn_down _ _ Hv). exact IH.
Qed.

End Teardown.

Section TornDown.
Implicit Types (w : world) (p : Z) (r : io_uring) (v : positive).

Lemma exit_returns_inv w w1 v :
  ocaml_uring_exit v w = Returns Val_unit w1 ->
  (torn_down w v /\ w1 = w) \/ (exists p r, live_ring w v p r /\ w1 = after_exit w v p r).
Proof.
  intros H.
  destruct (customs w !! v) as [p|] eqn:Hv.
  - destruct (Z.eq_dec p NULL) as [->|Hp].
    + left. split; [exact Hv|]. rewrite (exit_torn_down w v Hv) in H. congruence.
    + right. destruct (c_heap w !! p) as [[r|d|d]|] eqn:Hb.
      * exists p, r. assert (L : live_ring w v p r) by (repeat split; assumption).
        split; [exact L|]. rewrite (exit_live _ _ _ _ L) in H. congruence.
      * exfalso. revert H.
        unfold ocaml_uring_exit, Ring_val, mbind, stub_bind.
        rewrite (custom_get_some _ _ _ Hv).
        destruct (Z.eqb_spec p NULL) as [E|_]; [contradiction|]. simpl.
        unfold io_uring_queue_exit, ring_get, mbind, stub_bind.
        rewrite (heap_get_live _ _ _ Hp Hb). discriminate.
      * exfalso. revert H.
        unfold ocaml_uring_exit, Ring_val, mbind, stub_bind.
        rewrite (custom_get_some _ _ _ Hv).
        destruct (Z.eqb_spec p NULL) as [E|_]; [contradiction|]. simpl.
        unfold io_uring_queue_exit, ring_get, mbind, stub_bind.
        rewrite (heap_get_live _ _ _ Hp Hb). discriminate.
      * exfalso. revert H.
        unfold ocaml_uring_exit, Ring_val, mbind, stub_bind.
        rewrite (custom_get_some _ _ _ Hv).
        destruct (Z.eqb_spec p NULL) as [E|_]; [contradiction|]. simpl.
        unfold io_uring_queue_exit, ring_get, mbind, stub_bind, heap_get.
        destruct (Z.eqb_spec p NULL) as [E|_]; [contradiction|].
        rewrite Hb. discriminate.
  - exfalso. revert H. unfold ocaml_uring_exit, Ring_val, mbind, stub_bind, custom_get.
    rewrite Hv. discriminate.
Qed.

Lemma exit_returns_torn_down w w1 v :
  ocaml_uring_exit v w = Returns Val_unit w1 -> torn_down w1 v.
Proof.
  intros H. destruct (exit_returns_inv _ _ _ H) as [[Ht ->]|(p & r & _ & ->)].
  - exact Ht.
  - apply after_exit_torn_down.
Qed.

Lemma get_sqe_null w : io_uring_get_sqe NULL w = Undefined.
Proof. reflexivity. Qed.

(** On a torn-down ring the encoders reach [io_uring_get_sqe] with a null
    ring, whatever they did before. *)
Lemma encode_torn_down w v op id : torn_down w v -> encode op v id w = Undefined.
Proof.
  intros Hv.
  destruct op; simpl;
    try (unfold ocaml_uring_submit_nop, ocaml_uring_submit_openat2, ocaml_uring_submit_close,
           ocaml_uring_submit_poll_add, ocaml_uring_submit_readv, ocaml_uring_submit_writev,
           ocaml_uring_submit_readv_fixed_native, ocaml_uring_submit_writev_fixed_native,
           ocaml_uring_submit_splice, ocaml_uring_submit_cancel,
           Ring_val, mbind, stub_bind;
         rewrite (custom_get_some _ _ _ Hv); reflexivity).
  - (* connect *)
    unfold ocaml_uring_submit_connect, Ring_val, Sock_addr_val, mbind, stub_bind.
    rewrite (custom_get_some _ _ _ Hv).
    unfold custom_get at 1. destruct (customs w !! v_sockaddr); reflexivity.
  - (* accept: the handle may already have been written *)
    unfold ocaml_uring_submit_accept, Ring_val, Sock_addr_val, mbind, stub_bind.
    rewrite (custom_get_some _ _ _ Hv).
    unfold custom_get at 1. destruct (customs w !! v_sockaddr) as [q|]; [|reflexivity].
    destruct (sock_get_cases w q) as [(d & Hq & Hd & ->)| ->]; [|reflexivity].
    rewrite (sock_set_live _ _ _ _ Hq Hd). reflexivity.
Qed.

Lemma submit_torn_down w v kret posted :
  torn_down w v -> ocaml_uring_submit kret posted v w = Undefined.
Proof.
  intros Hv. unfold ocaml_uring_submit, Ring_val, mbind, stub_bind.
  rewrite (custom_get_some _ _ _ Hv). reflexivity.
Qed.

Lemma get_cqe_null if_none k w : get_cqe if_none k NULL w = Undefined.
Proof. destruct k; reflexivity. Qed.

Lemma wait_cqe_torn_down w v k late :
  torn_down w v -> ocaml_uring_wait_cqe k late v w = Undefined.
Proof.
  intros Hv. unfold ocaml_uring_wait_cqe, Ring_val, mbind, stub_bind.
  rewrite (custom_get_some _ _ _ Hv). unfold io_uring_wait_cqe.
  rewrite get_cqe_null. reflexivity.
Qed.

Lemma wait_cqe_timeout_torn_down w v k late t :
  torn_down w v -> ocaml_uring_wait_cqe_timeout k late t v w = Undefined.
Proof.
  intros Hv. unfold ocaml_uring_wait_cqe_timeout, Ring_val, mbind, stub_bind.
  rewrite (custom_get_some _ _ _ Hv). unfold io_uring_wait_cqe_timeout.
  rewrite get_cqe_null. reflexivity.
Qed.

Lemma peek_cqe_torn_down w v k late :
  torn_down w v -> ocaml_uring_peek_cqe k late v w = Undefined.
Proof.
  intros Hv. unfold ocaml_uring_peek_cqe, Ring_val, mbind, stub_bind.
  rewrite (custom_get_some _ _ _ Hv). unfold io_uring_peek_cqe.
  rewrite get_cqe_null. reflexivity.
Qed.

Lemma register_torn_down w v kret ba :
  torn_down w v -> ocaml_uring_register_ba kret v ba w = Undefined.
Proof.
  intros Hv. unfold ocaml_uring_register_ba, Ring_val, mbind, stub_bind.
  rewrite (custom_get_some _ _ _ Hv). reflexivity.
Qed.

Lemma unregister_torn_down w v kret ba :
  torn_down w v -> ocaml_uring_unregister_ba kret v ba w = Undefined.
Proof.
  intros Hv. unfold ocaml_uring_unregister_ba, Ring_val, mbind, stub_bind.
  rewrite (custom_get_some _ _ _ Hv). reflexivity.
Qed.

End TornDown.

(** ** The encoders on a live ring *)

Section Encoders.
Implicit Types (w : world) (p q : Z) (r : io_uring) (v : positive).

Lemma get_sqe_live w p r :
  p <> NULL -> c_heap w !! p = Some (Bring r) ->
  io_uring_get_sqe p w =
    if sq_full (sq r) then Returns None w
    else Returns (Some (p, sq_slot (sq r))) (with_ring w p (set_sq r (sq_reserve (sq r)))).
Proof.
  intros Hp Hr. unfold io_uring_get_sqe, mbind, stub_bind, sq_full.
  rewrite (ring_get_live _ _ _ Hp Hr).
  destruct (u32 (u32 (sqe_tail (sq r) + 1) - sq_khead (sq r)) <=? sq_kring_entries (sq r));
    simpl; [|reflexivity].
  rewrite (ring_set_live _ _ _ _ Hp Hr). reflexivity.
Qed.

Lemma at_sqe_live w p r i e f :
  p <> NULL -> c_heap w !! p = Some (Bring r) -> sqes (sq r) !! i = Some e ->
  at_sqe (Some (p, i)) f w =
    Returns tt (with_ring w p (set_sq r (set_sqes (sq r) (<[i := f e]> (sqes (sq r)))))).
Proof.
  intros Hp Hr He. unfold at_sqe, mbind, stub_bind.
  rewrite (ring_get_live _ _ _ Hp Hr), He.
  apply (ring_set_live _ _ _ _ Hp Hr).
Qed.

(** The two assignments that follow a successful [io_uring_get_sqe]. *)
Lemma fill_reserved w p r f g :
  p <> NULL -> c_heap w !! p = Some (Bring r) -> sq_wf (sq r) -> overwrites f ->
  (at_sqe (Some (p, sq_slot (sq r))) f;;
   at_sqe (Some (p, sq_slot (sq r))) g;;
   mret Val_true) (with_ring w p (set_sq r (sq_reserve (sq r))))
  = Returns Val_true (with_ring w p (set_sq r (sq_push (sq r) (g (f sqe_blank))))).
Proof.
  intros Hp Hr Hwf Hf.
  destruct (lookup_lt_is_Some_2 _ _ (sq_slot_lt _ Hwf)) as [e He].
  bind_step.
  erewrite at_sqe_live; [|exact Hp|apply with_block_lookup|exact He].
  unfold with_ring. rewrite with_block_twice.
  bind_step.
  erewrite at_sqe_live; [|exact Hp|apply with_block_lookup|].
  2:{ simpl. apply list_lookup_insert_eq. apply sq_slot_lt, Hwf. }
  unfold with_ring. rewrite with_block_twice. simpl.
  rewrite list_insert_insert_eq, (Hf e).
  reflexivity.
Qed.

(** An encoder that does nothing else than take a slot and fill it. *)
Lemma plain_encoder w v p r f id :
  live_ring w v p r -> sq_wf (sq r) -> overwrites f ->
  (ring ← Ring_val v;
   sqe ← io_uring_get_sqe ring;
   if bool_decide (sqe = None) then mret Val_false else
   at_sqe sqe f;;
   at_sqe sqe (io_uring_sqe_set_data id);;
   mret Val_true) w
  = if sq_full (sq r) then Returns Val_false w
    else Returns Val_true
           (with_ring w p (set_sq r (sq_push (sq r) (io_uring_sqe_set_data id (f sqe_blank))))).
Proof.
  intros (Hv & Hp & Hr) Hwf Hf.
  unfold Ring_val. bind_step.
  rewrite (custom_get_some _ _ _ Hv).
  bind_step.
  rewrite (get_sqe_live _ _ _ Hp Hr).
  destruct (sq_full (sq r)); [reflexivity|].
  rewrite bool_decide_eq_false_2 by discriminate.
  apply fill_reserved; assumption.
Qed.

End Encoders.

Section EncodeLive.
Implicit Types (w : world) (p q : Z) (r : io_uring) (v : positive).

Lemma prep_rw_overwrites op fd_ addr_ len_ offset : overwrites (io_uring_prep_rw op fd_ addr_ len_ offset).
Proof. intros e. reflexivity. Qed.

Lemma handle_ptr_some w v q : customs w !! v = Some q -> handle_ptr w v = q.
Proof. intros H. unfold handle_ptr. rewrite H. reflexivity. Qed.

Lemma handle_sock_live w v q d : live_sockaddr w v q d -> handle_sock w v = d.
Proof.
  intros (Hv & _ & Hd). unfold handle_sock. rewrite (handle_ptr_some _ _ _ Hv), Hd. reflexivity.
Qed.

Lemma live_blocks_differ w p q r d :
  c_heap w !! p = Some (Bring r) -> c_heap w !! q = Some (Bsock d) -> q <> p.
Proof. intros Hr Hd ->. congruence. Qed.

(** What every encoder does on a live ring: [false] and nothing more than
    [before_slot] when the submission ring is full, otherwise [true] with
    the entry of the operation in the slot handed out. *)
Lemma encode_live w v p r op id :
  live_ring w v p r -> sq_wf (sq r) -> handles_ok w op ->
  encode op v id w =
    if sq_full (sq r) then Returns Val_false (before_slot op w)
    else Returns Val_true
           (with_ring (before_slot op w) p (set_sq r (sq_push (sq r) (entry_of op id w)))).
Proof.
  intros L Hwf Hh. pose proof L as (Hv & Hp & Hr).
  destruct op; simpl in Hh |- *;
    try (apply (plain_encoder w v p r _ _ L Hwf); intros e; reflexivity).
  - (* openat2: the handle is read once the slot is there *)
    destruct Hh as [data Hdata].
    unfold ocaml_uring_submit_openat2, Ring_val, Open_how_val.
    run (custom_get_some _ _ _ Hv).
    run (get_sqe_live _ _ _ Hp Hr).
    destruct (sq_full (sq r)); [reflexivity|].
    rewrite bool_decide_eq_false_2 by discriminate.
    bind_step.
    rewrite (custom_get_some _ v_open_how data) by exact Hdata.
    unfold entry_of. rewrite (handle_ptr_some _ _ _ Hdata).
    apply (fill_reserved w p r _ _ Hp Hr Hwf). intros e; reflexivity.
  - (* connect: the stored length is read once the slot is there *)
    destruct Hh as (q & d & Ls). pose proof Ls as (Hvs & Hq & Hd).
    unfold ocaml_uring_submit_connect, Ring_val, Sock_addr_val.
    run (custom_get_some _ _ _ Hv).
    run (custom_get_some _ _ _ Hvs).
    run (get_sqe_live _ _ _ Hp Hr).
    destruct (sq_full (sq r)); [reflexivity|].
    rewrite bool_decide_eq_false_2 by discriminate.
    bind_step.
    rewrite (sock_get_live _ q d Hq).
    2:{ unfold with_ring. rewrite with_block_lookup_ne; [exact Hd|].
        intros E. apply (live_blocks_differ _ _ _ _ _ Hr Hd). symmetry; exact E. }
    unfold entry_of. rewrite (handle_ptr_some _ _ _ Hvs), (handle_sock_live _ _ _ _ Ls).
    apply (fill_reserved w p r _ _ Hp Hr Hwf). intros e; reflexivity.
  - (* accept: the stored length is written before the slot is asked for *)
    destruct Hh as (q & d & Ls). pose proof Ls as (Hvs & Hq & Hd).
    assert (Hqp : q <> p) by exact (live_blocks_differ _ _ _ _ _ Hr Hd).
    unfold ocaml_uring_submit_accept, Ring_val, Sock_addr_val.
    run (custom_get_some _ _ _ Hv).
    run (custom_get_some _ _ _ Hvs).
    run (sock_get_live _ _ _ Hq Hd).
    run (sock_set_live _ _ _ _ Hq Hd).
    unfold presized, entry_of.
    rewrite (handle_ptr_some _ _ _ Hvs), (handle_sock_live _ _ _ _ Ls).
    set (w' := with_sock w q _).
    assert (Hr' : c_heap w' !! p = Some (Bring r)).
    { unfold w', with_sock. rewrite with_block_lookup_ne by exact Hqp. exact Hr. }
    run (get_sqe_live _ _ _ Hp Hr').
    destruct (sq_full (sq r)); [reflexivity|].
    rewrite bool_decide_eq_false_2 by discriminate.
    apply (fill_reserved w' p r _ _ Hp Hr' Hwf). intros e; reflexivity.
Qed.

End EncodeLive.

(** ** Completion retrieval on a live ring *)

Section Retrieval.
Implicit Types (w : world) (p : Z) (r : io_uring) (v : positive) (c : io_uring_cq).

Lemma bind_returns_inv {A B} (m : stub A) (f : A -> stub B) w b w' :
  (m ≫= f) w = Returns b w' -> exists a w1, m w = Returns a w1 /\ f a w1 = Returns b w'.
Proof.
  unfold mbind, stub_bind. destruct (m w) as [a w1| | |]; try discriminate.
  intros H. exists a, w1. split; [reflexivity|exact H].
Qed.

Lemma set_cq_same r : set_cq r (cq r) = r.
Proof. destruct r; reflexivity. Qed.

Lemma kernel_post_frame c x :
  cq_khead (kernel_post c x) = cq_khead c /\
  cq_kring_mask (kernel_post c x) = cq_kring_mask c /\
  length (cqes (kernel_post c x)) = length (cqes c).
Proof.
  unfold kernel_post.
  destruct (u32 (cq_ktail c - cq_khead c) <? cq_kring_entries c); simpl.
  - repeat split. apply length_insert.
  - repeat split.
Qed.

Lemma cq_after_frame cs c :
  cq_khead (cq_after cs c) = cq_khead c /\
  cq_kring_mask (cq_after cs c) = cq_kring_mask c /\
  length (cqes (cq_after cs c)) = length (cqes c).
Proof.
  revert c. induction cs as [|x cs IH]; intros c; [repeat split|].
  unfold cq_after in *. simpl.
  destruct (IH (kernel_post c x)) as (H1 & H2 & H3).
  destruct (kernel_post_frame c x) as (K1 & K2 & K3).
  rewrite H1, H2, H3, K1, K2, K3. repeat split.
Qed.


Lemma kernel_posts_live w p r cs :
  p <> NULL -> c_heap w !! p = Some (Bring r) ->
  kernel_posts p cs w = Returns tt (with_ring w p (set_cq r (cq_after cs (cq r)))).
Proof.
  intros Hp Hr. destruct cs as [|x cs].
  - simpl. unfold cq_after; simpl. rewrite set_cq_same.
    unfold with_ring. rewrite (with_block_same _ _ _ Hr). reflexivity.
  - unfold kernel_posts, mbind, stub_bind.
    rewrite (ring_get_live _ _ _ Hp Hr). apply (ring_set_live _ _ _ _ Hp Hr).
Qed.

(** The liburing call on a live ring. *)
Lemma get_cqe_live if_none k w p r :
  p <> NULL -> c_heap w !! p = Some (Bring r) ->
  get_cqe if_none k p w =
    match k with
    | Kerrno e => Returns (Z.neg e, None) w
    | Kposted cs =>
        let w1 := with_ring w p (set_cq r (cq_after cs (cq r))) in
        match cq_oldest (cq_after cs (cq r)) with
        | Some i => Returns (0, Some (p, i)) w1
        | None => if_none w1
        end
    end.
Proof.
  intros Hp Hr. destruct k as [cs|e]; unfold get_cqe, mbind, stub_bind.
  - rewrite (ring_get_live _ _ _ Hp Hr), (kernel_posts_live _ _ _ _ Hp Hr).
    erewrite ring_get_live; [|exact Hp|apply with_block_lookup].
    simpl. destruct (cq_oldest (cq_after cs (cq r))); reflexivity.
  - rewrite (ring_get_live _ _ _ Hp Hr). reflexivity.
Qed.

End Retrieval.

Section Dispatch.
Implicit Types (w : world) (p : Z) (r : io_uring) (v : positive) (c : io_uring_cq).

Lemma retrieve_unfold m k late v :
  retrieve m k late v =
    (ring ← Ring_val v;
     '(res, cqe) ← lib_call m k ring;
     if res <? 0 then
       if recognised m res then mret Val_cqe_none else unix_error (- res) (lib_name m)
     else consume ring cqe late).
Proof. destruct m; reflexivity. Qed.

Lemma retrieve_dispatch m k late w v p r ret cqe w1 :
  live_ring w v p r ->
  lib_call m k p w = Returns (ret, cqe) w1 ->
  retrieve m k late v w =
    if ret <? 0 then
      if recognised m ret then Returns Val_cqe_none w1
      else Raises (Unix_error (- ret) (lib_name m)) w1
    else consume p cqe late w1.
Proof.
  intros (Hv & _ & _) Hc. rewrite retrieve_unfold.
  unfold Ring_val. run (custom_get_some _ _ _ Hv).
  run Hc.
  destruct (ret <? 0); [|reflexivity].
  destruct (recognised m ret); reflexivity.
Qed.

Lemma set_cq_set_cq r c1 c2 : set_cq (set_cq r c1) c2 = set_cq r c2.
Proof. reflexivity. Qed.

Lemma consume_live w p r i x late :
  p <> NULL -> c_heap w !! p = Some (Bring r) -> cqes (cq r) !! i = Some x ->
  consume p (Some (p, i)) late w =
    Returns (Val_cqe_some (id_of x) (Val_int (res_at (cq_after late (cq_seen (cq r))) i)))
            (with_ring w p (set_cq r (cq_after late (cq_seen (cq r))))).
Proof.
  intros Hp Hr Hx. unfold consume.
  bind_step.
  unfold io_uring_cqe_get_data, cqe_read. unfold mbind at 1 2, stub_bind at 1 2.
  rewrite (ring_get_live _ _ _ Hp Hr), Hx. simpl.
  bind_step.
  bind_step.
  rewrite (ring_get_live _ _ _ Hp Hr), (ring_set_live _ _ _ _ Hp Hr).
  fold (cq_seen (cq r)).
  bind_step.
  erewrite kernel_posts_live; [|exact Hp|apply with_block_lookup].
  unfold with_ring. rewrite with_block_twice. simpl cq. rewrite set_cq_set_cq.
  set (c3 := cq_after late (cq_seen (cq r))).
  assert (Hlen : (i < length (cqes c3))%nat).
  { unfold c3. destruct (cq_after_frame late (cq_seen (cq r))) as (_ & _ & ->). simpl.
    apply lookup_lt_is_Some_1. eexists; exact Hx. }
  destruct (lookup_lt_is_Some_2 _ _ Hlen) as [y Hy].
  unfold cqe_get_res, cqe_read. unfold mbind at 1 2 3, stub_bind at 1 2 3.
  erewrite ring_get_live; [|exact Hp|apply with_block_lookup].
  change (cq (set_cq r c3)) with c3. rewrite Hy. simpl.
  unfold res_at. rewrite Hy. reflexivity.
Qed.

(** Whatever the pointers and the rings, the shared branch does not return
    the "no completion" value. *)
Lemma consume_not_none ring cqe late w w' : consume ring cqe late w <> Returns Val_cqe_none w'.
Proof.
  intros H. unfold consume in H.
  apply bind_returns_inv in H as (data & w1 & _ & H).
  apply bind_returns_inv in H as (u1 & w2 & _ & H).
  apply bind_returns_inv in H as (u2 & w3 & _ & H).
  apply bind_returns_inv in H as (res & w4 & _ & H).
  discriminate H.
Qed.



(** A successful retrieval, in any of the three modes: the id is the one of
    the oldest entry; the result is what its slot holds once the entry has
    been marked seen and the kernel has posted [late]. *)
Lemma retrieve_success m cs late w v p r i x :
  live_ring w v p r ->
  cq_oldest (cq_after cs (cq r)) = Some i ->
  cqes (cq_after cs (cq r)) !! i = Some x ->
  retrieve m (Kposted cs) late v w =
    Returns (Val_cqe_some (id_of x)
               (Val_int (res_at (cq_after late (cq_seen (cq_after cs (cq r)))) i)))
            (with_ring w p (set_cq r (cq_after late (cq_seen (cq_after cs (cq r)))))).
Proof.
  intros L Ho Hx. pose proof L as (Hv & Hp & Hr).
  assert (Hc : lib_call m (Kposted cs) p w =
               Returns (0, Some (p, i)) (with_ring w p (set_cq r (cq_after cs (cq r))))).
  { destruct m;
      unfold lib_call, io_uring_wait_cqe, io_uring_wait_cqe_timeout, io_uring_peek_cqe;
      rewrite (get_cqe_live _ _ _ _ _ Hp Hr); cbv zeta; rewrite Ho; reflexivity. }
  rewrite (retrieve_dispatch m _ late w v p r _ _ _ L Hc). simpl.
  erewrite consume_live; [|exact Hp|apply with_block_lookup|exact Hx].
  unfold with_ring. rewrite with_block_twice. reflexivity.
Qed.


End Dispatch.

(** ** The completion ring: slots and order *)

Section Queue.
Implicit Types (w : world) (p : Z) (r : io_uring) (v : positive) (c : io_uring_cq) (k : Z).

Lemma pow2_pos k : 0 <= k -> 0 < 2 ^ k.
Proof. intros. apply Z.pow_pos_nonneg; lia. Qed.

Lemma pow2_divides k : 0 <= k <= 31 -> (2 ^ k | 2 ^ 32).
Proof.
  intros Hk. exists (2 ^ (32 - k)). rewrite <- Z.pow_add_r by lia. f_equal. lia.
Qed.

Lemma pow2_le k : 0 <= k <= 31 -> 2 ^ k <= 2 ^ 31.
Proof. intros Hk. apply Z.pow_le_mono_r; lia. Qed.

(** Reducing modulo [2^32] first does not change the slot. *)
Lemma mod_mod_pow2 k a : 0 <= k <= 31 -> (a mod 2 ^ 32) mod 2 ^ k = a mod 2 ^ k.
Proof.
  intros Hk. apply Z.mod_mod_divide, pow2_divides, Hk.
Qed.

Lemma cq_slot_mod k c x :
  0 <= k -> cq_kring_mask c = 2 ^ k - 1 -> cq_slot c x = Z.to_nat (x mod 2 ^ k).
Proof.
  intros Hk Hm. unfold cq_slot. rewrite Hm.
  replace (2 ^ k - 1) with (Z.ones k) by (rewrite Z.ones_equiv; lia).
  rewrite Z.land_ones by exact Hk. reflexivity.
Qed.

Lemma cq_slot_mask c' c x : cq_kring_mask c' = cq_kring_mask c -> cq_slot c' x = cq_slot c x.
Proof. intros H. unfold cq_slot. rewrite H. reflexivity. Qed.

Lemma cq_slot_lt k c x : cq_inv k c -> (cq_slot c x < length (cqes c))%nat.
Proof.
  intros (Hk & Hm & _ & Hl & _). rewrite (cq_slot_mod k) by (lia || assumption).
  pose proof (Z.mod_pos_bound x (2 ^ k) (pow2_pos k ltac:(lia))). lia.
Qed.

Lemma cq_count_range c : 0 <= cq_count c < 2 ^ 32.
Proof. apply (wrap_unsigned_range 32). lia. Qed.

(** Two completions less than [2^k] apart lie in different slots. *)
Lemma cq_slot_apart k c x i j :
  0 <= k -> cq_kring_mask c = 2 ^ k - 1 ->
  0 <= i < j -> j - i < 2 ^ k -> cq_slot c (x + i) <> cq_slot c (x + j).
Proof.
  intros Hk Hm Hij Hd. rewrite !(cq_slot_mod k) by assumption.
  pose proof (pow2_pos k Hk) as Hp.
  pose proof (Z.mod_pos_bound (x + i) (2 ^ k) Hp).
  pose proof (Z.mod_pos_bound (x + j) (2 ^ k) Hp).
  intros E. apply Z2Nat.inj in E; try lia.
  assert (Hz : ((x + j) - (x + i)) mod 2 ^ k = 0).
  { rewrite Zminus_mod, E, Z.sub_diag. apply Z.mod_0_l. lia. }
  replace (x + j - (x + i)) with (j - i) in Hz by lia.
  rewrite Z.mod_small in Hz by lia. lia.
Qed.

(** The slot the kernel writes next is the one after the unseen ones. *)
Lemma cq_slot_tail k c :
  cq_inv k c -> cq_slot c (cq_ktail c) = cq_slot c (cq_khead c + cq_count c).
Proof.
  intros (Hk & Hm & _). rewrite !(cq_slot_mod k) by (lia || assumption). f_equal.
  unfold cq_count, u32, wrap_unsigned.
  rewrite <- Zplus_mod_idemp_r, mod_mod_pow2 by exact Hk.
  rewrite Zplus_mod_idemp_r. f_equal. lia.
Qed.

Lemma kernel_post_queue k c x :
  cq_inv k c -> cq_count c < 2 ^ k ->
  cq_unseen (kernel_post c x) = cq_unseen c ++ [x] /\
  cq_inv k (kernel_post c x) /\
  cq_count (kernel_post c x) = cq_count c + 1.
Proof.
  intros Hinv Hroom. pose proof Hinv as (Hk & Hm & He & Hl & Hh & Ht & Hc).
  pose proof (cq_count_range c) as Hr. pose proof (pow2_le k Hk) as Hle.
  unfold kernel_post. fold (cq_count c). rewrite He.
  destruct (Z.ltb_spec (cq_count c) (2 ^ k)) as [_|]; [|lia].
  fold (cq_slot c (cq_ktail c)).
  set (c' := Cq _ _ _ _ _).
  assert (Hcount : cq_count c' = cq_count c + 1).
  { unfold cq_count, c', u32, wrap_unsigned; cbn.
    rewrite Zminus_mod_idemp_l.
    replace (cq_ktail c + 1 - cq_khead c) with (cq_ktail c - cq_khead c + 1) by lia.
    rewrite <- Zplus_mod_idemp_l. fold (wrap_unsigned 32 (cq_ktail c - cq_khead c)).
    fold (u32 (cq_ktail c - cq_khead c)). fold (cq_count c).
    apply Z.mod_small. change (2 ^ 31) with 2147483648 in Hle.
    change (2 ^ 32) with 4294967296 in *. lia. }
  split; [|split; [|exact Hcount]].
  - unfold cq_unseen. rewrite Hcount.
    replace (Z.to_nat (cq_count c + 1)) with (Z.to_nat (cq_count c) + 1)%nat by lia.
    rewrite seq_app, map_app. f_equal.
    + apply map_ext_in. intros j Hj. apply in_seq in Hj.
      unfold c'; cbn [cqes cq_khead]. f_equal.
      rewrite (cq_slot_mask _ c) by reflexivity.
      apply list_lookup_insert_ne.
      rewrite (cq_slot_tail k c Hinv). intros E. symmetry in E. revert E.
      apply (cq_slot_apart k); try assumption; lia.
    + simpl. f_equal. unfold c'; cbn [cqes cq_khead].
      rewrite (cq_slot_mask _ c) by reflexivity.
      rewrite Z2Nat.id by lia. rewrite <- (cq_slot_tail k c Hinv).
      rewrite list_lookup_insert_eq by (apply (cq_slot_lt k), Hinv). reflexivity.
  - unfold cq_inv. rewrite Hcount. unfold c'; cbn.
    rewrite length_insert.
    repeat (split; try assumption); try lia; apply (wrap_unsigned_range 32); lia.
Qed.

Lemma cq_seen_queue k c :
  cq_inv k c -> 0 < cq_count c ->
  cq_unseen (cq_seen c) = drop 1 (cq_unseen c) /\
  cq_inv k (cq_seen c) /\
  cq_count (cq_seen c) = cq_count c - 1.
Proof.
  intros Hinv Hpos. pose proof Hinv as (Hk & Hm & He & Hl & Hh & Ht & Hc).
  pose proof (cq_count_range c) as Hr.
  assert (Hcount : cq_count (cq_seen c) = cq_count c - 1).
  { unfold cq_count, cq_seen, set_cq_khead, u32, wrap_unsigned; cbn.
    rewrite Zminus_mod_idemp_r.
    replace (cq_ktail c - (cq_khead c + 1)) with (cq_ktail c - cq_khead c - 1) by lia.
    rewrite <- Zminus_mod_idemp_l. fold (wrap_unsigned 32 (cq_ktail c - cq_khead c)).
    fold (u32 (cq_ktail c - cq_khead c)). fold (cq_count c).
    apply Z.mod_small. lia. }
  split; [|split; [|exact Hcount]].
  - unfold cq_unseen. rewrite Hcount.
    replace (Z.to_nat (cq_count c)) with (S (Z.to_nat (cq_count c - 1))) by lia.
    cbn [seq map drop]. rewrite <- seq_shift, map_map.
    apply map_ext. intros j. f_equal. cbn [cqes cq_seen set_cq_khead cq_khead].
    rewrite !(cq_slot_mod k) by (lia || exact Hm). f_equal.
    unfold u32, wrap_unsigned. rewrite <- Zplus_mod_idemp_l, mod_mod_pow2 by exact Hk.
    rewrite Zplus_mod_idemp_l. do 2 f_equal. lia.
  - unfold cq_inv. rewrite Hcount. unfold cq_seen, set_cq_khead; cbn.
    repeat (split; try assumption); try lia; apply (wrap_unsigned_range 32); lia.
Qed.

Lemma cq_after_queue k cs : forall c,
  cq_inv k c -> cq_count c + Z.of_nat (length cs) <= 2 ^ k ->
  cq_unseen (cq_after cs c) = cq_unseen c ++ cs /\
  cq_inv k (cq_after cs c) /\
  cq_count (cq_after cs c) = cq_count c + Z.of_nat (length cs).
Proof.
  induction cs as [|x cs IH]; intros c Hinv Hroom.
  - unfold cq_after; simpl. rewrite app_nil_r. split; [reflexivity|]. split; [exact Hinv|lia].
  - simpl length in Hroom.
    destruct (kernel_post_queue k c x Hinv ltac:(lia)) as (Hu & Hi & Hc).
    destruct (IH (kernel_post c x) Hi ltac:(lia)) as (Hu' & Hi' & Hc').
    unfold cq_after in *. simpl fold_left. rewrite Hu', Hu, Hc', Hc, <- app_assoc.
    split; [reflexivity|]. split; [exact Hi'|]. simpl length. lia.
Qed.

Lemma cq_unseen_length c : length (cq_unseen c) = Z.to_nat (cq_count c).
Proof. unfold cq_unseen. rewrite length_map, length_seq. reflexivity. Qed.

(** The oldest completion, when there is one, is the head of the queue. *)
Lemma cq_oldest_head k c x rest :
  cq_inv k c -> cq_unseen c = x :: rest ->
  0 < cq_count c /\
  cq_oldest c = Some (cq_slot c (cq_khead c)) /\
  cqes c !! cq_slot c (cq_khead c) = Some x.
Proof.
  intros Hinv Hu. pose proof (cq_count_range c) as Hr.
  assert (Hpos : 0 < cq_count c).
  { pose proof (cq_unseen_length c) as Hl. rewrite Hu in Hl. simpl in Hl. lia. }
  split; [exact Hpos|]. split.
  - unfold cq_oldest. fold (cq_count c).
    destruct (Z.eqb_spec (cq_count c) 0); [lia|reflexivity].
  - destruct (lookup_lt_is_Some_2 _ _ (cq_slot_lt k c (cq_khead c) Hinv)) as [y Hy].
    rewrite Hy. f_equal. revert Hu. unfold cq_unseen.
    replace (Z.to_nat (cq_count c)) with (S (Z.to_nat (cq_count c - 1))) by lia.
    cbn [seq map]. rewrite Z.add_0_r, Hy. intros [= ? _]. assumption.
Qed.

Lemma cq_oldest_empty c : cq_unseen c = [] -> cq_oldest c = None.
Proof.
  intros Hu. pose proof (cq_unseen_length c) as Hl. rewrite Hu in Hl. simpl in Hl.
  pose proof (cq_count_range c) as Hr.
  unfold cq_oldest. fold (cq_count c).
  destruct (Z.eqb_spec (cq_count c) 0); [reflexivity|lia].
Qed.

(** A peek on an empty completion ring. *)
Lemma peek_nothing w v p r :
  live_ring w v p r -> cq_oldest (cq r) = None ->
  ocaml_uring_peek_cqe (Kposted []) [] v w = Returns Val_cqe_none w.
Proof.
  intros L Ho. pose proof L as (Hv & Hp & Hr).
  assert (Hc : lib_call Peek (Kposted []) p w = Returns (- EAGAIN, None) w).
  { unfold lib_call, io_uring_peek_cqe. rewrite (get_cqe_live _ _ _ _ _ Hp Hr).
    cbv zeta. unfold cq_after; simpl fold_left. rewrite Ho, set_cq_same.
    unfold with_ring. rewrite (with_block_same _ _ _ Hr). reflexivity. }
  exact (retrieve_dispatch Peek (Kposted []) [] w v p r _ _ _ L Hc).
Qed.

(** A post leaves every slot but the one at the tail as it was. *)
Lemma kernel_post_other c x j :
  j <> cq_slot c (cq_ktail c) -> cqes (kernel_post c x) !! j = cqes c !! j.
Proof.
  intros Hj. unfold kernel_post. destruct (_ <? _); [|reflexivity].
  cbn [cqes]. apply list_lookup_insert_ne. intros E; apply Hj; symmetry; exact E.
Qed.

(** Completions that the kernel posts while the ring keeps a free slot do
    not reach the slot before the head, the one released last. *)
Lemma cq_after_released k late : forall c,
  cq_inv k c -> cq_count c + Z.of_nat (length late) < 2 ^ k ->
  cqes (cq_after late c) !! cq_slot c (cq_khead c - 1) = cqes c !! cq_slot c (cq_khead c - 1).
Proof.
  induction late as [|x late IH]; intros c Hinv Hroom; [reflexivity|].
  simpl length in Hroom. pose proof (cq_count_range c) as Hr.
  destruct (kernel_post_queue k c x Hinv ltac:(lia)) as (_ & Hi & Hc).
  pose proof Hinv as (Hk & Hm & _).
  change (cq_after (x :: late) c) with (cq_after late (kernel_post c x)).
  assert (Hh : cq_khead (kernel_post c x) = cq_khead c).
  { unfold kernel_post. destruct (_ <? _); reflexivity. }
  assert (Hmask : cq_kring_mask (kernel_post c x) = cq_kring_mask c).
  { unfold kernel_post. destruct (_ <? _); reflexivity. }
  specialize (IH (kernel_post c x) Hi ltac:(lia)).
  rewrite Hh, (cq_slot_mask _ c _ Hmask) in IH. rewrite IH.
  apply kernel_post_other. rewrite (cq_slot_tail k c Hinv).
  pose proof (cq_slot_apart k c (cq_khead c - 1) 0 (cq_count c + 1)
                ltac:(lia) Hm ltac:(lia) ltac:(lia)) as A.
  rewrite Z.add_0_r in A.
  replace (cq_khead c - 1 + (cq_count c + 1)) with (cq_khead c + cq_count c) in A by lia.
  exact A.
Qed.

(** Once the oldest completion is marked seen, its slot is the one before
    the head. *)
Lemma cq_seen_released k c :
  cq_inv k c -> cq_slot (cq_seen c) (cq_khead (cq_seen c) - 1) = cq_slot c (cq_khead c).
Proof.
  intros (Hk & Hm & _).
  rewrite !(cq_slot_mod k) by (lia || exact Hm). f_equal.
  cbn [cq_seen set_cq_khead cq_khead]. unfold u32, wrap_unsigned.
  rewrite <- Zminus_mod_idemp_l, mod_mod_pow2 by exact Hk.
  rewrite Zminus_mod_idemp_l. f_equal. lia.
Qed.

(** The result read after the release is the completion's own as long as
    the completions posted in between fit beside the unseen ones: the kernel
    then has no use for the released slot. *)
Lemma res_at_released k c late i x :
  cq_inv k c -> cq_oldest c = Some i -> cqes c !! i = Some x ->
  cq_count c + Z.of_nat (length late) <= 2 ^ k ->
  res_at (cq_after late (cq_seen c)) i = cqe_res x.
Proof.
  intros Hinv Ho Hx Hroom.
  assert (Hpos : 0 < cq_count c /\ i = cq_slot c (cq_khead c)).
  { revert Ho. unfold cq_oldest. fold (cq_count c). pose proof (cq_count_range c).
    destruct (Z.eqb_spec (cq_count c) 0); [discriminate|].
    intros [= <-]. split; [lia|reflexivity]. }
  destruct Hpos as (Hpos & ->).
  destruct (cq_seen_queue k c Hinv Hpos) as (_ & Hi2 & Hc2).
  unfold res_at. rewrite <- (cq_seen_released k c Hinv).
  rewrite (cq_after_released k late (cq_seen c) Hi2) by lia.
  rewrite (cq_seen_released k c Hinv).
  change (cqes (cq_seen c)) with (cqes c). rewrite Hx. reflexivity.
Qed.

(** One retrieval takes the head of the queue; what the kernel posts during
    the call, before the stub looks at the ring ([cs]) or after it has
    released the head ([late]), queues up behind. *)
Lemma retrieve_head m k cs late w v p r x rest :
  live_ring w v p r ->
  cq_inv k (cq r) ->
  cq_count (cq r) + Z.of_nat (length cs) + Z.of_nat (length late) <= 2 ^ k ->
  cq_unseen (cq r) ++ cs = x :: rest ->
  exists r',
    retrieve m (Kposted cs) late v w = Returns (pair_of x) (with_ring w p r') /\
    live_ring (with_ring w p r') v p r' /\
    cq_unseen (cq r') = rest ++ late /\
    cq_inv k (cq r') /\
    sq r' = sq r.
Proof.
  intros L Hinv Hroom Hu. pose proof L as (Hv & Hp & Hr).
  destruct (cq_after_queue k cs (cq r) Hinv ltac:(lia)) as (Hu1 & Hi1 & Hc1).
  rewrite Hu in Hu1.
  destruct (cq_oldest_head k _ x rest Hi1 Hu1) as (Hpos & Ho & Hx).
  destruct (cq_seen_queue k _ Hi1 Hpos) as (Hu2 & Hi2 & Hc2).
  rewrite Hu1 in Hu2. cbn [drop] in Hu2.
  destruct (cq_after_queue k late _ Hi2 ltac:(lia)) as (Hu3 & Hi3 & _).
  rewrite Hu2 in Hu3.
  exists (set_cq r (cq_after late (cq_seen (cq_after cs (cq r))))).
  split; [|split; [|split; [exact Hu3|split; [exact Hi3|reflexivity]]]].
  - rewrite (retrieve_success m cs late w v p r _ x L Ho Hx).
    rewrite (res_at_released k _ late _ x Hi1 Ho Hx) by lia. reflexivity.
  - split; [exact Hv|]. split; [exact Hp|]. apply with_block_lookup.
Qed.

End Queue.

(** ** Socket-address conversions *)

Section SockAddr.

Lemma Z_of_byte_of_Z z : Z_of_byte (byte_of_Z z) = z mod 256.
Proof.
  unfold Z_of_byte, byte_of_Z.
  assert (Hr : 0 <= z mod 256 < 256) by (apply Z.mod_pos_bound; lia).
  destruct (Byte.of_N (Z.to_N (z mod 256))) as [b|] eqn:E.
  - apply Byte.to_of_N in E. rewrite E. apply Z2N.id. lia.
  - apply Byte.of_N_None_iff in E. lia.
Qed.

Lemma read16_le16 x rest : read16 0 1 (le16 x ++ rest) = x mod 65536.
Proof.
  unfold read16, le16. simpl. rewrite !Z_of_byte_of_Z.
  Z.to_euclidean_division_equations. lia.
Qed.

Lemma read16_le16_at2 b0 b1 x rest : read16 2 3 (b0 :: b1 :: le16 x ++ rest) = x mod 65536.
Proof.
  unfold read16, le16. simpl. rewrite !Z_of_byte_of_Z.
  Z.to_euclidean_division_equations. lia.
Qed.

Lemma swap16_involutive x : 0 <= x < 65536 -> swap16 (u16 (swap16 (u16 x))) = x.
Proof.
  intros Hx. unfold swap16, u16, wrap_unsigned.
  change (2 ^ 16) with 65536.
  Z.to_euclidean_division_equations. lia.
Qed.

Lemma port_roundtrip port :
  0 <= port < 65536 -> Val_int (ntohs (htons (Int_val port) mod 65536)) = port.
Proof.
  intros Hp. unfold Int_val, Long_val, s32.
  rewrite (wrap_signed_small 32) by (change (2 ^ (32 - 1)) with 2147483648; lia).
  unfold ntohs, htons.
  assert (Hs : 0 <= swap16 (u16 port) < 65536).
  { unfold swap16, u16, wrap_unsigned. change (2 ^ 16) with 65536.
    Z.to_euclidean_division_equations. lia. }
  rewrite (Z.mod_small _ 65536) by exact Hs.
  rewrite swap16_involutive by exact Hp.
  unfold Val_int. apply wrap_signed_small; [lia|].
  change (2 ^ (63 - 1)) with 4611686018427387904. lia.
Qed.

Lemma strnlen_c_safe path rest :
  caml_string_is_c_safe path = true -> strnlen (path ++ rest) (length path) = length path.
Proof.
  induction path as [|b path IH]; intros H; [reflexivity|].
  simpl in H |- *. apply andb_prop in H as [Hb Hs].
  destruct (Byte.eqb b x00); [discriminate|].
  f_equal. apply IH, Hs.
Qed.

Lemma write_bytes_at n pre src rest :
  n = length pre ->
  write_bytes n src (pre ++ rest) = pre ++ src ++ drop (length src) rest.
Proof.
  intros ->. unfold write_bytes. rewrite take_app_length, drop_app_add. reflexivity.
Qed.

Lemma write_bytes_0 src buf : write_bytes 0 src buf = src ++ drop (length src) buf.
Proof. reflexivity. Qed.

Lemma get_sockaddr_unix path d :
  valid_sockaddr (ADDR_UNIX path) ->
  get_sockaddr (ADDR_UNIX path) d =
    inr (SockAddrData (le16 AF_UNIX ++ (path ++ [x00]) ++
                         drop (length (path ++ [x00])) (drop 2 (sock_addr_addr d)))
                      (offsetof_sun_path + Z.of_nat (length path))).
Proof.
  intros [Hlen Hsafe]. unfold get_sockaddr.
  destruct (Z.leb_spec sizeof_sun_path (Z.of_nat (length path))) as [Hl|_]; [lia|].
  replace (negb (Byte.eqb (default x00 (path !! 0%nat)) x00) && negb (caml_string_is_c_safe path))
    with false.
  2:{ symmetry. rewrite <- negb_orb. rewrite Hsafe. reflexivity. }
  rewrite (wrap_unsigned_small 32).
  2:{ unfold offsetof_sun_path, sizeof_sun_path in *. lia. }
  rewrite write_bytes_0.
  rewrite (write_bytes_at 2 (le16 AF_UNIX)) by reflexivity.
  reflexivity.
Qed.

Lemma alloc_sockaddr_unix path rest :
  valid_sockaddr (ADDR_UNIX path) ->
  alloc_sockaddr (le16 AF_UNIX ++ (path ++ [x00]) ++ rest)
                 (offsetof_sun_path + Z.of_nat (length path)) = inr (ADDR_UNIX path).
Proof.
  intros [Hlen Hsafe]. unfold alloc_sockaddr.
  destruct (Z.ltb_spec (offsetof_sun_path + Z.of_nat (length path)) offsetof_sa_data) as [Hl|_].
  { unfold offsetof_sun_path, offsetof_sa_data in Hl. lia. }
  rewrite read16_le16. change (AF_UNIX mod 65536 =? AF_UNIX) with true. cbv iota.
  change (drop 2 (le16 AF_UNIX ++ (path ++ [x00]) ++ rest)) with ((path ++ [x00]) ++ rest).
  f_equal. f_equal.
  destruct (Z.ltb_spec offsetof_sun_path (offsetof_sun_path + Z.of_nat (length path))) as [Hpos|Hz].
  - replace (Z.to_nat (offsetof_sun_path + Z.of_nat (length path) - offsetof_sun_path))
      with (length path) by lia.
    destruct path as [|b path]; [simpl in Hpos; lia|].
    change (default x00 ((((b :: path) ++ [x00]) ++ rest) !! 0%nat)) with b.
    simpl in Hsafe.
    destruct (Byte.eqb b x00) eqn:Eb.
    + rewrite <- app_assoc. apply take_app_length.
    + simpl in Hsafe. rewrite <- app_assoc.
      rewrite (strnlen_c_safe (b :: path)).
      * apply take_app_length.
      * simpl. rewrite Eb. exact Hsafe.
  - destruct path; [reflexivity|simpl in Hz; lia].
Qed.

Lemma read16_le16_second y x rest : read16 2 3 (le16 y ++ le16 x ++ rest) = x mod 65536.
Proof. apply read16_le16_at2. Qed.

Lemma get_sockaddr_inet4 a0 a1 a2 a3 port d :
  get_sockaddr (ADDR_INET [a0; a1; a2; a3] port) d =
    inr (SockAddrData (le16 AF_INET ++ le16 (htons (Int_val port)) ++ [a0; a1; a2; a3] ++
                         replicate 8 x00 ++ drop 16 (sock_addr_addr d))
                      sizeof_sockaddr_in).
Proof. reflexivity. Qed.

Lemma alloc_sockaddr_inet4 a0 a1 a2 a3 port rest :
  0 <= port < 65536 ->
  alloc_sockaddr (le16 AF_INET ++ le16 (htons (Int_val port)) ++ [a0; a1; a2; a3] ++ rest)
                 sizeof_sockaddr_in = inr (ADDR_INET [a0; a1; a2; a3] port).
Proof.
  intros Hp. unfold alloc_sockaddr.
  change (sizeof_sockaddr_in <? offsetof_sa_data) with false. cbv iota.
  rewrite read16_le16, read16_le16_second.
  change (AF_INET mod 65536 =? AF_UNIX) with false.
  change (AF_INET mod 65536 =? AF_INET) with true. cbv iota.
  rewrite (port_roundtrip _ Hp). reflexivity.
Qed.

Lemma get_sockaddr_inet6 a port d :
  length a = 16%nat ->
  get_sockaddr (ADDR_INET a port) d =
    inr (SockAddrData (le16 AF_INET6 ++ le16 (htons (Int_val port)) ++ replicate 4 x00 ++ a ++
                         replicate 4 x00 ++ drop 28 (sock_addr_addr d))
                      sizeof_sockaddr_in6).
Proof.
  intros Ha.
  do 16 (destruct a as [|? a]; [discriminate Ha|]). destruct a; [|discriminate Ha].
  reflexivity.
Qed.

Lemma alloc_sockaddr_inet6 a port rest :
  length a = 16%nat -> 0 <= port < 65536 ->
  alloc_sockaddr (le16 AF_INET6 ++ le16 (htons (Int_val port)) ++ replicate 4 x00 ++ a ++ rest)
                 sizeof_sockaddr_in6 = inr (ADDR_INET a port).
Proof.
  intros Ha Hp. unfold alloc_sockaddr.
  change (sizeof_sockaddr_in6 <? offsetof_sa_data) with false. cbv iota.
  rewrite read16_le16, read16_le16_second.
  change (AF_INET6 mod 65536 =? AF_UNIX) with false.
  change (AF_INET6 mod 65536 =? AF_INET) with false.
  change (AF_INET6 mod 65536 =? AF_INET6) with true. cbv iota.
  rewrite (port_roundtrip _ Hp).
  change (drop 8 (le16 AF_INET6 ++ le16 (htons (Int_val port)) ++ replicate 4 x00 ++ a ++ rest))
    with (a ++ rest).
  rewrite <- Ha, take_app_length. reflexivity.
Qed.

Lemma get_alloc_roundtrip a d :
  valid_sockaddr a ->
  exists d', get_sockaddr a d = inr d' /\
             sock_addr_len d' = native_length a /\
             read16 0 1 (sock_addr_addr d') = family_of a /\
             alloc_sockaddr (sock_addr_addr d') (sock_addr_len d') = inr a.
Proof.
  intros Hv. destruct a as [path|a port].
  - eexists. split; [apply (get_sockaddr_unix _ _ Hv)|]. cbn [sock_addr_len sock_addr_addr].
    split; [reflexivity|]. split; [apply read16_le16|].
    apply (alloc_sockaddr_unix _ _ Hv).
  - destruct Hv as [[Ha|Ha] Hp].
    + do 4 (destruct a as [|? a]; [discriminate Ha|]). destruct a; [|discriminate Ha].
      eexists. split; [apply get_sockaddr_inet4|]. cbn [sock_addr_len sock_addr_addr].
      split; [reflexivity|]. split; [apply read16_le16|].
      apply alloc_sockaddr_inet4, Hp.
    + eexists. split; [apply (get_sockaddr_inet6 _ _ _ Ha)|]. cbn [sock_addr_len sock_addr_addr].
      split; [simpl; rewrite Ha; reflexivity|].
      split; [rewrite read16_le16; simpl; rewrite Ha; reflexivity|].
      apply alloc_sockaddr_inet6; assumption.
Qed.

Lemma fresh_addr_not_null (h : gmap Z cblock) : fresh ({[NULL]} ∪ dom h) <> NULL.
Proof.
  intros E. pose proof (is_fresh ({[NULL]} ∪ dom h)) as Hf. rewrite E in Hf.
  apply Hf. set_solver.
Qed.

Lemma make_sockaddr_returns junk a d' w :
  get_sockaddr a junk = inr d' ->
  exists v q w1,
    ocaml_uring_make_sockaddr junk a w = Returns v w1 /\ live_sockaddr w1 v q d'.
Proof.
  intros Hg.
  set (v := fresh (dom (customs w))).
  set (q := fresh ({[NULL]} ∪ dom (c_heap w))).
  assert (Hq : q <> NULL) by apply fresh_addr_not_null.
  exists v, q. eexists.
  unfold ocaml_uring_make_sockaddr.
  bind_step. unfold caml_alloc_custom_mem. fold v.
  bind_step. unfold custom_set at 1. cbn [customs c_heap trace].
  rewrite lookup_insert_eq.
  bind_step. unfold caml_stat_alloc. cbn [customs c_heap trace]. fold q.
  bind_step. unfold custom_set at 1. cbn [customs c_heap trace].
  rewrite lookup_insert_eq.
  bind_step.
  erewrite sock_get_live; [|exact Hq|cbn [c_heap]; apply lookup_insert_eq].
  run Hg. cbn [lift_error]. unfold mret at 1, stub_ret at 1.
  bind_step.
  erewrite sock_set_live; [|exact Hq|cbn [c_heap]; apply lookup_insert_eq].
  split; [reflexivity|].
  split; [|split; [exact Hq|]].
  - cbn. apply lookup_insert_eq.
  - apply with_block_lookup.
Qed.

Lemma extract_sockaddr_live w v q d :
  live_sockaddr w v q d ->
  ocaml_uring_extract_sockaddr v w = lift_error (alloc_sockaddr (sock_addr_addr d) (sock_addr_len d)) w.
Proof.
  intros (Hv & Hq & Hd). unfold ocaml_uring_extract_sockaddr, Sock_addr_val.
  run (custom_get_some _ _ _ Hv).
  run (sock_get_live _ _ _ Hq Hd).
  unfold mbind, stub_bind.
  destruct (alloc_sockaddr (sock_addr_addr d) (sock_addr_len d)); reflexivity.
Qed.

End SockAddr.

(** ** The example worlds *)

Section Examples.

Lemma ex_world_live : live_ring ex_world 1 4096 ex_ring.
Proof. repeat split. discriminate. Qed.

Lemma ex_world_sq_full_live : live_ring ex_world_sq_full 1 4096 ex_ring_sq_full.
Proof. repeat split. discriminate. Qed.

Lemma ex_world_sq_full_sock : live_sockaddr ex_world_sq_full 2 8192 ex_sock.
Proof. repeat split. discriminate. Qed.

Lemma ex_world_cq_full_live : live_ring ex_world_cq_full 1 4096 ex_ring_cq_full.
Proof. repeat split. discriminate. Qed.

Lemma ex_ring_sq_wf : sq_wf (sq ex_ring).
Proof. unfold sq_wf; simpl. lia. Qed.


Lemma ex_ring_sq_full_wf : sq_wf (sq ex_ring_sq_full).
Proof. unfold sq_wf; simpl. lia. Qed.

(** A no-op with id 77 takes slot 0 and moves the tail. *)
Example ex_submit_nop :
  ocaml_uring_submit_nop 1 77 ex_world =
    Returns Val_true
      (with_ring ex_world 4096
         (set_sq ex_ring
            (Sq 0 0 1 2 0 1 [Sqe 0 0 0 (-1) 0 0 0 0 77 0 0 0 0 0; sqe_blank]))).
Proof. reflexivity. Qed.

(** A third entry does not fit a ring of two. *)
Example ex_submit_third :
  (ocaml_uring_submit_nop 1 1;; ocaml_uring_submit_nop 1 2;; ocaml_uring_submit_nop 1 3) ex_world
  = (ocaml_uring_submit_nop 1 1;; ocaml_uring_submit_nop 1 2;; mret Val_false) ex_world.
Proof. vm_compute. reflexivity. Qed.

(** Nothing submitted: a peek finds nothing, a wait does not return. *)
Example ex_peek_empty : ocaml_uring_peek_cqe (Kposted []) [] 1 ex_world = Returns Val_cqe_none ex_world.
Proof. reflexivity. Qed.

Example ex_wait_empty : ocaml_uring_wait_cqe (Kposted []) [] 1 ex_world = Blocks.
Proof. reflexivity. Qed.

(** An abstract Unix name, with its leading and inner NUL bytes, survives
    the conversions. *)
Example ex_abstract_name :
  alloc_sockaddr
    (match get_sockaddr (ADDR_UNIX [x00; "a"; x00; "b"]%byte) ex_sock with
     | inr d => sock_addr_addr d
     | inl _ => []
     end) 6
  = inr (ADDR_UNIX [x00; "a"; x00; "b"]%byte).
Proof. reflexivity. Qed.

(** 65537 is not a port: the native address has 16 bits for it, and
    [htons] keeps the low ones. *)
Example ex_port_cut :
  exists d, get_sockaddr (ADDR_INET [x01; x02; x03; x04] 65537) ex_sock = inr d /\
            alloc_sockaddr (sock_addr_addr d) (sock_addr_len d)
              = inr (ADDR_INET [x01; x02; x03; x04] 1).
Proof. eexists. split; reflexivity. Qed.

(** The time handed to the kernel.  Half a second is exact.  The double
    nearest to 2.3 lies below it and the nanoseconds are cut, not rounded.
    A NaN gives the least integer in both fields. *)
Example ex_timespec :
  timespec_of double_half = (0, 500000000) /\
  timespec_of double_2_3 = (2, 299999999) /\
  timespec_of S754_nan = (- 2 ^ 63, - 2 ^ 63).
Proof. split; [reflexivity|]. split; reflexivity. Qed.

(** Submit lets the kernel in: it has consumed the two prepared entries and
    completed them by the time the call returns. *)
Example ex_submit_posts :
  exists w1 w2 w3 r3,
    ocaml_uring_submit_nop 1 7 ex_world = Returns Val_true w1 /\
    ocaml_uring_submit_nop 1 8 w1 = Returns Val_true w2 /\
    ocaml_uring_submit 2 [Cqe 7 0 0; Cqe 8 0 0] 1 w2 = Returns 2 w3 /\
    c_heap w3 !! 4096 = Some (Bring r3) /\
    cq_ktail (cq ex_ring) = 0 /\ cq_ktail (cq r3) = 2.
Proof. do 4 eexists. repeat split; vm_compute; reflexivity. Qed.

End Examples.

(** * Properties of the ring abstraction *)

(** ** Teardown *)

(** C6.  Teardown is idempotent.  On a live ring, [n >= 1] teardowns in a
    row all return unit and leave the state that one teardown leaves: the
    handle holds the null pointer, the ring's block is gone from the C heap,
    and the ring was released once ([io_uring_queue_exit] and
    [caml_stat_free] each appear once in the trace, whatever [n]).  A further
    teardown in that state changes nothing. *)
Theorem teardown_idempotent (w : world) (v : positive) (p : Z) (r : io_uring) (n : nat) :
  live_ring w v p r ->
  (1 <= n)%nat ->
  ocaml_uring_exit v w = Returns Val_unit (after_exit w v p r) /\
  teardown_times n v w = Returns Val_unit (after_exit w v p r) /\
  trace (after_exit w v p r) = trace w ++ [Ev_queue_exit (ring_fd r); Ev_stat_free p] /\
  ocaml_uring_exit v (after_exit w v p r) = Returns Val_unit (after_exit w v p r).
Proof.
  intros L Hn. split; [apply (exit_live _ _ _ _ L)|]. split.
  - destruct n as [|n]; [lia|]. simpl. unfold mbind, stub_bind.
    rewrite (exit_live _ _ _ _ L).
    apply teardown_times_torn_down, after_exit_torn_down.
  - split; [reflexivity|]. apply exit_torn_down, after_exit_torn_down.
Qed.

Lemma teardown_idempotent_witness :
  live_ring ex_world 1 4096 ex_ring /\ (1 <= 3)%nat /\
  teardown_times 3 1 ex_world = Returns Val_unit ex_world_down.
Proof.
  split; [exact ex_world_live|]. split; [lia|].
  exact (proj1 (proj2 (teardown_idempotent ex_world 1 4096 ex_ring 3 ex_world_live
                         (le_S _ _ (le_S _ _ (le_n 1)))))).
Defined.

(** C2, as the code has it.  Once teardown has returned, the handle holds
    the null pointer and a further teardown returns unit without changing
    anything.  No other stub looks at the pointer before handing it to
    liburing: every encoder, submit, the three completion retrievals and
    buffer registration and unregistration dereference a null ring, which is
    undefined behaviour and not a reported failure. *)
Theorem after_teardown (w w1 : world) (v : positive) :
  ocaml_uring_exit v w = Returns Val_unit w1 ->
  torn_down w1 v /\
  (forall p r, ~ live_ring w1 v p r) /\
  ocaml_uring_exit v w1 = Returns Val_unit w1 /\
  (forall op id, encode op v id w1 = Undefined) /\
  (forall kret posted, ocaml_uring_submit kret posted v w1 = Undefined) /\
  (forall m k late, retrieve m k late v w1 = Undefined) /\
  (forall kret ba, ocaml_uring_register_ba kret v ba w1 = Undefined) /\
  (forall kret ba, ocaml_uring_unregister_ba kret v ba w1 = Undefined).
Proof.
  intros H. pose proof (exit_returns_torn_down _ _ _ H) as Ht.
  split; [exact Ht|].
  split; [intros p r (Hv & Hp & _); unfold torn_down in Ht; congruence|].
  split; [apply exit_torn_down, Ht|].
  split; [intros op id; apply encode_torn_down, Ht|].
  split; [intros kret posted; apply submit_torn_down, Ht|].
  split.
  { intros [|t|] k late; simpl.
    - apply wait_cqe_torn_down, Ht.
    - apply wait_cqe_timeout_torn_down, Ht.
    - apply peek_cqe_torn_down, Ht. }
  split; [intros kret ba; apply register_torn_down, Ht|].
  intros kret ba; apply unregister_torn_down, Ht.
Qed.

Lemma after_teardown_witness :
  ocaml_uring_exit 1 ex_world = Returns Val_unit ex_world_down /\
  torn_down ex_world_down 1 /\
  ocaml_uring_exit 1 ex_world_down = Returns Val_unit ex_world_down.
Proof.
  assert (H : ocaml_uring_exit 1 ex_world = Returns Val_unit ex_world_down) by reflexivity.
  split; [exact H|].
  split; [exact (proj1 (after_teardown ex_world ex_world_down 1 H))|].
  exact (proj1 (proj2 (proj2 (after_teardown ex_world ex_world_down 1 H)))).
Defined.

(** C2 as stated fails: after teardown of the example ring, taking a slot
    for a no-op is neither a success nor a failure; the stub passes the null
    pointer to [io_uring_get_sqe]. *)
Lemma submit_after_teardown_undefined :
  ocaml_uring_exit 1 ex_world = Returns Val_unit ex_world_down /\
  ocaml_uring_submit_nop 1 3 ex_world_down = Undefined /\
  (forall e w', ocaml_uring_submit_nop 1 3 ex_world_down <> Raises e w').
Proof.
  split; [reflexivity|]. split; [reflexivity|]. intros e w'. discriminate.
Qed.

(** ** Completion retrieval *)






(** C10.  With [ret] what the liburing call of a retrieval returned on a
    live ring: the retrieval returns the "no completion" value only if [ret]
    is negative and recognised, that is [-EAGAIN] or [-EINTR], or [-ETIME]
    for the wait with a timeout; a recognised [ret] gives that value; any
    other negative [ret] raises [Unix_error] with the code [- ret] and the
    name of the liburing call. *)
Theorem retrieval_error_dispatch (m : retrieval) (w : world) (v : positive) (p : Z)
    (r : io_uring) (k : kernel_reply) (late : list io_uring_cqe)
    (ret : Z) (cqe : slot_ptr) (w1 : world) :
  live_ring w v p r ->
  lib_call m k p w = Returns (ret, cqe) w1 ->
  (recognised m ret = true <->
     ret = - EAGAIN \/ ret = - EINTR \/
     (ret = - ETIME /\ exists t, m = Wait_timeout t)) /\
  (ret < 0 -> recognised m ret = true ->
     retrieve m k late v w = Returns Val_cqe_none w1) /\
  (ret < 0 -> recognised m ret = false ->
     retrieve m k late v w = Raises (Unix_error (- ret) (lib_name m)) w1) /\
  (forall w', retrieve m k late v w = Returns Val_cqe_none w' ->
     ret < 0 /\ recognised m ret = true).
Proof.
  intros L Hc. rewrite (retrieve_dispatch m k late w v p r ret cqe w1 L Hc).
  split; [|split; [|split]].
  - unfold recognised. destruct m as [|t|].
    + rewrite orb_true_iff, !Z.eqb_eq. split.
      * intros [H|H]; [left|right; left]; exact H.
      * intros [H|[H|[_ [t Ht]]]]; [left; exact H|right; exact H|discriminate Ht].
    + rewrite !orb_true_iff, !Z.eqb_eq. split.
      * intros [[H|H]|H]; [left; exact H|right; left; exact H|].
        right; right. split; [exact H|]. exists t; reflexivity.
      * intros [H|[H|[H _]]]; [left; left; exact H|left; right; exact H|right; exact H].
    + rewrite orb_true_iff, !Z.eqb_eq. split.
      * intros [H|H]; [left|right; left]; exact H.
      * intros [H|[H|[_ [t Ht]]]]; [left; exact H|right; exact H|discriminate Ht].
  - intros Hneg Hrec. destruct (Z.ltb_spec ret 0) as [_|Hpos]; [|lia].
    rewrite Hrec. reflexivity.
  - intros Hneg Hrec. destruct (Z.ltb_spec ret 0) as [_|Hpos]; [|lia].
    rewrite Hrec. reflexivity.
  - intros w'. destruct (Z.ltb_spec ret 0) as [Hneg|Hpos].
    + destruct (recognised m ret); [intros _; split; [exact Hneg|reflexivity]|discriminate].
    + intros H. exfalso. exact (consume_not_none _ _ _ _ _ H).
Qed.

(** An error that is not recognised, [EBADF] (9), on the example ring. *)
Lemma retrieval_error_dispatch_witness :
  live_ring ex_world 1 4096 ex_ring /\
  lib_call Peek (Kerrno 9) 4096 ex_world = Returns (-9, None) ex_world /\
  ocaml_uring_peek_cqe (Kerrno 9) [] 1 ex_world
    = Raises (Unix_error 9 "io_uring_peek_cqe") ex_world.
Proof.
  assert (Hc : lib_call Peek (Kerrno 9) 4096 ex_world = Returns (-9, None) ex_world)
    by reflexivity.
  split; [exact ex_world_live|]. split; [exact Hc|].
  exact (proj1 (proj2 (proj2 (retrieval_error_dispatch Peek ex_world 1 4096 ex_ring (Kerrno 9) []
                                (-9) None ex_world ex_world_live Hc)))
               eq_refl eq_refl).
Defined.

(** C3 at the failing input.  The completion ring is full and its oldest
    entry is (id 7, result 11).  Each retrieval marks that entry seen and
    reads [cqe->res] afterwards; the kernel, which may use the freed slot at
    once, has by then posted (id 20, result -5) there: the pair returned is
    (7, -5), the id of one completion with the result of another.  Without
    anything posted in between the pair is (7, 11). *)
Theorem result_read_after_seen :
  cq_oldest (cq ex_ring_cq_full) = Some 0%nat /\
  cqes (cq ex_ring_cq_full) !! 0%nat = Some (Cqe 7 11 0) /\
  (forall m, exists w',
     retrieve m (Kposted []) [Cqe 20 (-5) 0] 1 ex_world_cq_full
       = Returns (Val_cqe_some 7 (-5)) w') /\
  (forall m, exists w',
     retrieve m (Kposted []) [] 1 ex_world_cq_full = Returns (Val_cqe_some 7 11) w').
Proof.
  split; [reflexivity|]. split; [reflexivity|].
  split; intros [|t|]; eexists; vm_compute; reflexivity.
Qed.

(** ** The encoders *)

(** C4, as the code has it.  For every operation kind, on a live ring whose
    handles are usable:
    - if the submission ring is full the encoder returns false, and the
      state is the one in which it asked for a slot;
    - otherwise it returns true, the slot handed out holds the entry of the
      operation (every field assigned, whatever the slot held before) with
      the correlation id as user data, and the tail of the ring has moved by
      one;
    - the state in which it asked for a slot is the state of the call,
      except for accept, which has by then set the stored length of its
      socket-address handle to the size of the address union. *)
Theorem encode_full_or_filled (w : world) (v : positive) (p : Z) (r : io_uring)
    (op : operation) (id : Z) :
  live_ring w v p r ->
  sq_wf (sq r) ->
  handles_ok w op ->
  (sq_full (sq r) = true ->
     encode op v id w = Returns Val_false (before_slot op w)) /\
  (sq_full (sq r) = false ->
     encode op v id w =
       Returns Val_true
         (with_ring (before_slot op w) p (set_sq r (sq_push (sq r) (entry_of op id w)))) /\
     sqes (sq_push (sq r) (entry_of op id w)) !! sq_slot (sq r) = Some (entry_of op id w) /\
     user_data (entry_of op id w) = u64 (Long_val id)) /\
  match op with
  | Op_accept _ v_sockaddr =>
      before_slot op w =
        with_sock w (handle_ptr w v_sockaddr)
          (SockAddrData (sock_addr_addr (handle_sock w v_sockaddr)) sizeof_sock_addr_union)
  | _ => before_slot op w = w
  end.
Proof.
  intros L Hwf Hh. pose proof (encode_live w v p r op id L Hwf Hh) as E.
  split; [|split].
  - intros Hf. rewrite Hf in E. exact E.
  - intros Hf. rewrite Hf in E. split; [exact E|]. split.
    + simpl. apply list_lookup_insert_eq, sq_slot_lt, Hwf.
    + reflexivity.
  - destruct op; reflexivity.
Qed.

Lemma encode_full_or_filled_witness :
  live_ring ex_world 1 4096 ex_ring /\
  sq_wf (sq ex_ring) /\
  handles_ok ex_world (Op_close 3) /\
  sq_full (sq ex_ring) = false /\
  encode (Op_close 3) 1 9 ex_world =
    Returns Val_true
      (with_ring ex_world 4096
         (set_sq ex_ring (sq_push (sq ex_ring) (entry_of (Op_close 3) 9 ex_world)))).
Proof.
  split; [exact ex_world_live|]. split; [exact ex_ring_sq_wf|]. split; [exact I|].
  split; [reflexivity|].
  exact (proj1 (proj1 (proj2 (encode_full_or_filled ex_world 1 4096 ex_ring (Op_close 3) 9
                                ex_world_live ex_ring_sq_wf I)) eq_refl)).
Defined.

(** C4 as stated fails: the submission ring of the example is full, accept
    returns false, and the stored length of its handle, 16 before the call,
    is 112 after it. *)
Lemma accept_on_full_ring_writes_handle :
  sq_full (sq ex_ring_sq_full) = true /\
  sock_addr_len (handle_sock ex_world_sq_full 2) = 16 /\
  exists w',
    encode (Op_accept 3 2) 1 9 ex_world_sq_full = Returns Val_false w' /\
    sock_addr_len (handle_sock w' 2) = 112 /\
    w' <> ex_world_sq_full.
Proof.
  split; [reflexivity|]. split; [reflexivity|].
  eexists. split; [vm_compute; reflexivity|]. split; [reflexivity|].
  intros E. apply (f_equal (fun w => sock_addr_len (handle_sock w 2))) in E.
  vm_compute in E. discriminate E.
Qed.

(** C9.  On a live ring, accept sets the stored length of its
    socket-address handle to the size of the address union before it asks
    for a slot: whether the submission ring is full or not, the handle holds
    that length when the stub returns, and when the ring is full the stub
    returns false and this write is the whole difference between the state
    before and the state after. *)
Theorem accept_presizes_handle (w : world) (v : positive) (p : Z) (r : io_uring)
    (v_sockaddr : positive) (q : Z) (d : sock_addr_data) (v_id v_fd : Z) :
  live_ring w v p r ->
  sq_wf (sq r) ->
  live_sockaddr w v_sockaddr q d ->
  let d' := SockAddrData (sock_addr_addr d) sizeof_sock_addr_union in
  exists b w',
    ocaml_uring_submit_accept v v_id v_fd v_sockaddr w = Returns b w' /\
    b = negb (sq_full (sq r)) /\
    live_sockaddr w' v_sockaddr q d' /\
    (sq_full (sq r) = true -> b = Val_false /\ w' = with_sock w q d').
Proof.
  intros L Hwf Ls d'. pose proof L as (Hv & Hp & Hr). pose proof Ls as (Hvs & Hq & Hd).
  assert (Hh : handles_ok w (Op_accept v_fd v_sockaddr)) by (exists q, d; exact Ls).
  pose proof (encode_live w v p r (Op_accept v_fd v_sockaddr) v_id L Hwf Hh) as E.
  simpl in E. unfold presized in E.
  rewrite (handle_ptr_some _ _ _ Hvs), (handle_sock_live _ _ _ _ Ls) in E. fold d' in E.
  assert (Ls' : live_sockaddr (with_sock w q d') v_sockaddr q d').
  { split; [exact Hvs|]. split; [exact Hq|]. apply with_block_lookup. }
  destruct (sq_full (sq r)).
  - exists Val_false, (with_sock w q d'). split; [exact E|]. split; [reflexivity|].
    split; [exact Ls'|]. intros _. split; reflexivity.
  - eexists Val_true, _. split; [exact E|]. split; [reflexivity|]. split.
    + split; [exact Hvs|]. split; [exact Hq|].
      unfold with_ring. rewrite with_block_lookup_ne.
      * apply with_block_lookup.
      * intros Epq. apply (live_blocks_differ _ _ _ _ _ Hr Hd). symmetry; exact Epq.
    + discriminate.
Qed.

Lemma accept_presizes_handle_witness :
  live_ring ex_world_sq_full 1 4096 ex_ring_sq_full /\
  sq_wf (sq ex_ring_sq_full) /\
  live_sockaddr ex_world_sq_full 2 8192 ex_sock /\
  ocaml_uring_submit_accept 1 9 3 2 ex_world_sq_full =
    Returns Val_false
      (with_sock ex_world_sq_full 8192 (SockAddrData (sock_addr_addr ex_sock) 112)).
Proof.
  split; [exact ex_world_sq_full_live|]. split; [exact ex_ring_sq_full_wf|].
  split; [exact ex_world_sq_full_sock|].
  destruct (accept_presizes_handle ex_world_sq_full 1 4096 ex_ring_sq_full 2 8192 ex_sock 9 3
              ex_world_sq_full_live ex_ring_sq_full_wf ex_world_sq_full_sock)
    as (b & w' & Hret & _ & _ & Hfull).
  destruct (Hfull eq_refl) as [-> ->]. exact Hret.
Defined.

(** The length field has 32 bits: it holds the byte count modulo 2^32. *)
Lemma splice_len_wraps (w : world) (v_id v_fd_in v_fd_out v_nbytes : Z) :
  len (entry_of (Op_splice v_fd_in v_fd_out v_nbytes) v_id w) = v_nbytes mod 2 ^ 32.
Proof.
  unfold entry_of, io_uring_prep_splice, io_uring_sqe_set_data, set_op_flags,
    set_splice_fd_in, set_addr, io_uring_prep_rw; cbn [len].
  unfold Int_val, Long_val, u32, s32. rewrite wrap_unsigned_signed by lia. reflexivity.
Qed.

(** C8, as the code has it.  For every source descriptor, destination
    descriptor and byte count, on a live ring with a free slot the splice
    encoder returns true and the entry it leaves in the slot is a splice
    whose two offsets, the one of the destination ([off]) and the one of the
    source ([splice_off_in], the [addr] word), are both -1 as 64-bit
    integers and whose splice flags are 0; the descriptors are those given
    (as C [int]s) and the user data is the correlation id.  The length field
    has 32 bits and holds the byte count modulo 2^32: it is the byte count
    given exactly when that count is at least 0 and less than 2^32. *)
Theorem splice_entry (w : world) (v : positive) (p : Z) (r : io_uring)
    (v_id v_fd_in v_fd_out v_nbytes : Z) :
  live_ring w v p r ->
  sq_wf (sq r) ->
  sq_full (sq r) = false ->
  exists e,
    ocaml_uring_submit_splice v v_id v_fd_in v_fd_out v_nbytes w =
      Returns Val_true (with_ring w p (set_sq r (sq_push (sq r) e))) /\
    sqes (sq_push (sq r) e) !! sq_slot (sq r) = Some e /\
    opcode e = IORING_OP_SPLICE /\
    off e = 2 ^ 64 - 1 /\ s64 (off e) = -1 /\
    addr e = 2 ^ 64 - 1 /\ s64 (addr e) = -1 /\
    len e = v_nbytes mod 2 ^ 32 /\
    (len e = v_nbytes <-> 0 <= v_nbytes < 2 ^ 32) /\
    op_flags e = 0 /\
    fd e = Int_val v_fd_out /\
    splice_fd_in e = Int_val v_fd_in /\
    user_data e = u64 (Long_val v_id).
Proof.
  intros L Hwf Hfree.
  pose proof (encode_live w v p r (Op_splice v_fd_in v_fd_out v_nbytes) v_id L Hwf I) as E.
  rewrite Hfree in E. simpl encode in E. simpl before_slot in E.
  eexists. split; [exact E|].
  split; [simpl; apply list_lookup_insert_eq, sq_slot_lt, Hwf|].
  rewrite (splice_len_wraps w v_id v_fd_in v_fd_out v_nbytes).
  unfold entry_of, io_uring_prep_splice, io_uring_sqe_set_data, set_op_flags,
    set_splice_fd_in, set_addr, io_uring_prep_rw; cbn [opcode off addr op_flags fd
    splice_fd_in user_data].
  do 6 (split; [reflexivity|]).
  split.
  { pose proof (Z.mod_pos_bound v_nbytes (2 ^ 32) ltac:(lia)) as Hb. split.
    - intros <-. exact Hb.
    - intros Hn. apply Z.mod_small, Hn. }
  split; [reflexivity|].
  split; [unfold Int_val, s32; apply wrap_signed_idem; lia|].
  split; [unfold Int_val, s32; apply wrap_signed_idem; lia|reflexivity].
Qed.

Lemma splice_entry_witness :
  live_ring ex_world 1 4096 ex_ring /\
  sq_wf (sq ex_ring) /\
  sq_full (sq ex_ring) = false /\
  exists e,
    ocaml_uring_submit_splice 1 9 3 4 4096 ex_world =
      Returns Val_true (with_ring ex_world 4096 (set_sq ex_ring (sq_push (sq ex_ring) e))) /\
    s64 (off e) = -1 /\ s64 (addr e) = -1 /\ len e = 4096 /\ op_flags e = 0.
Proof.
  split; [exact ex_world_live|]. split; [exact ex_ring_sq_wf|]. split; [reflexivity|].
  destruct (splice_entry ex_world 1 4096 ex_ring 9 3 4 4096 ex_world_live ex_ring_sq_wf
              eq_refl)
    as (e & Hret & _ & _ & _ & Hoff & _ & Haddr & Hlen & _ & Hflags & _).
  exists e. split; [exact Hret|]. split; [exact Hoff|]. split; [exact Haddr|].
  split; [rewrite Hlen; reflexivity|exact Hflags].
Defined.

(** C8 as stated fails: on the live example ring, which has a free slot,
    the splice encoder accepts the byte count 2^32 + 5 and leaves an entry of
    length 5, and it accepts the byte count -1 and leaves an entry of length
    2^32 - 1; in neither entry is the length the byte count given. *)
Lemma splice_count_not_kept :
  live_ring ex_world 1 4096 ex_ring /\
  sq_full (sq ex_ring) = false /\
  (exists e,
     ocaml_uring_submit_splice 1 9 3 4 (2 ^ 32 + 5) ex_world =
       Returns Val_true (with_ring ex_world 4096 (set_sq ex_ring (sq_push (sq ex_ring) e))) /\
     sqes (sq_push (sq ex_ring) e) !! sq_slot (sq ex_ring) = Some e /\
     len e = 5 /\ len e <> 2 ^ 32 + 5) /\
  (exists e,
     ocaml_uring_submit_splice 1 9 3 4 (-1) ex_world =
       Returns Val_true (with_ring ex_world 4096 (set_sq ex_ring (sq_push (sq ex_ring) e))) /\
     sqes (sq_push (sq ex_ring) e) !! sq_slot (sq ex_ring) = Some e /\
     len e = 2 ^ 32 - 1 /\ len e <> -1).
Proof.
  split; [exact ex_world_live|]. split; [reflexivity|].
  split; eexists; (split; [vm_compute; reflexivity|]);
    (split; [reflexivity|]); (split; [reflexivity|]); vm_compute; discriminate.
Qed.

(** ** Socket-address handles *)

(** C7.  For every socket address (a path that fits [sun_path], an
    internet address of 4 or 16 bytes with a 16-bit port), whatever the
    fresh block contained: making a handle from the address returns a handle
    that stores the native address, with the family and the length of that
    address, and extracting from the handle returns the address itself, the
    state unchanged. *)
Theorem sockaddr_roundtrip (w : world) (junk : sock_addr_data) (a : sockaddr) :
  valid_sockaddr a ->
  exists v q d w1,
    ocaml_uring_make_sockaddr junk a w = Returns v w1 /\
    live_sockaddr w1 v q d /\
    read16 0 1 (sock_addr_addr d) = family_of a /\
    sock_addr_len d = native_length a /\
    ocaml_uring_extract_sockaddr v w1 = Returns a w1.
Proof.
  intros Hv.
  destruct (get_alloc_roundtrip a junk Hv) as (d & Hg & Hlen & Hfam & Ha).
  destruct (make_sockaddr_returns junk a d w Hg) as (v & q & w1 & Hm & Ls).
  exists v, q, d, w1. split; [exact Hm|]. split; [exact Ls|].
  split; [exact Hfam|]. split; [exact Hlen|].
  rewrite (extract_sockaddr_live _ _ _ _ Ls), Ha. reflexivity.
Qed.

Lemma sockaddr_roundtrip_witness :
  valid_sockaddr (ADDR_INET ["127"%byte; x00; x00; x01] 8080) /\
  exists v w1,
    ocaml_uring_make_sockaddr ex_sock (ADDR_INET ["127"%byte; x00; x00; x01] 8080) ex_world
      = Returns v w1 /\
    ocaml_uring_extract_sockaddr v w1
      = Returns (ADDR_INET ["127"%byte; x00; x00; x01] 8080) w1.
Proof.
  assert (Hv : valid_sockaddr (ADDR_INET ["127"%byte; x00; x00; x01] 8080)).
  { simpl. split; [left; reflexivity|lia]. }
  split; [exact Hv|].
  destruct (sockaddr_roundtrip ex_world ex_sock _ Hv) as (v & q & d & w1 & Hm & _ & _ & _ & He).
  exists v, w1. split; assumption.
Defined.

(** * Further properties of the stubs *)

(** ** Setup *)

Section Setup.
Implicit Types (w : world) (p : Z) (r : io_uring) (v : positive).

(** The address and the handle that setup obtains in [w]. *)
Lemma fresh_addr_unused (h : gmap Z cblock) : h !! fresh ({[NULL]} ∪ dom h) = None.
Proof.
  apply not_elem_of_dom. pose proof (is_fresh ({[NULL]} ∪ dom h)) as Hf. set_solver.
Qed.

Lemma fresh_custom_unused (c : gmap positive Z) : c !! fresh (dom c) = None.
Proof. apply not_elem_of_dom, is_fresh. Qed.

Lemma setup_ok_run junk r entries w :
  ocaml_uring_setup junk (Init_ok r) entries w =
    Returns (fresh (dom (customs w)))
      (World (<[fresh (dom (customs w)) := fresh ({[NULL]} ∪ dom (c_heap w))]> (customs w))
             (<[fresh ({[NULL]} ∪ dom (c_heap w)) := Bring r]> (c_heap w))
             (trace w)).
Proof.
  set (v := fresh (dom (customs w))).
  set (p := fresh ({[NULL]} ∪ dom (c_heap w))).
  assert (Hp : p <> NULL) by apply fresh_addr_not_null.
  unfold ocaml_uring_setup.
  bind_step. unfold caml_stat_alloc. fold p.
  bind_step. unfold io_uring_queue_init.
  bind_step. erewrite ring_get_live; [|exact Hp|cbn [c_heap]; apply lookup_insert_eq].
  bind_step. erewrite ring_set_live; [|exact Hp|cbn [c_heap]; apply lookup_insert_eq].
  unfold mret at 1, stub_ret at 1. cbv iota beta. change (0 =? 0) with true. cbv iota.
  bind_step. unfold caml_alloc_custom_mem. cbn [customs c_heap trace with_ring with_block]. fold v.
  bind_step. unfold custom_set. cbn [customs c_heap trace]. rewrite lookup_insert_eq.
  unfold mret, stub_ret. rewrite !insert_insert_eq. reflexivity.
Qed.


End Setup.

(** X1.  When the kernel accepts, setup returns a handle that no value of
    the program held before, and the handle is live: it holds the address of
    a block that was not allocated before and that contains the ring the
    kernel set up.  Nothing is released, and every ring handle and
    socket-address handle that was live stays live, on the same block with
    the same contents. *)
Theorem setup_gives_live_ring (junk r : io_uring) (entries : Z) (w : world) :
  exists v p w',
    ocaml_uring_setup junk (Init_ok r) entries w = Returns v w' /\
    live_ring w' v p r /\
    customs w !! v = None /\
    c_heap w !! p = None /\
    trace w' = trace w /\
    (forall v2 p2 r2, live_ring w v2 p2 r2 -> live_ring w' v2 p2 r2) /\
    (forall v2 q d, live_sockaddr w v2 q d -> live_sockaddr w' v2 q d).
Proof.
  set (v := fresh (dom (customs w))).
  set (p := fresh ({[NULL]} ∪ dom (c_heap w))).
  pose proof (fresh_custom_unused (customs w)) as Hv. fold v in Hv.
  pose proof (fresh_addr_unused (c_heap w)) as Hp. fold p in Hp.
  exists v, p. eexists. split; [apply setup_ok_run|]. fold v p.
  split; [|split; [exact Hv|split; [exact Hp|split; [reflexivity|split]]]].
  - split; [apply lookup_insert_eq|]. split; [apply fresh_addr_not_null|].
    apply lookup_insert_eq.
  - intros v2 p2 r2 (H1 & H2 & H3). split; [|split; [exact H2|]]; cbn.
    + rewrite lookup_insert_ne; [exact H1|]. intros ->. congruence.
    + rewrite lookup_insert_ne; [exact H3|]. intros ->. congruence.
  - intros v2 q d (H1 & H2 & H3). split; [|split; [exact H2|]]; cbn.
    + rewrite lookup_insert_ne; [exact H1|]. intros ->. congruence.
    + rewrite lookup_insert_ne; [exact H3|]. intros ->. congruence.
Qed.


(** X3.  Setup followed by teardown of the handle it returned gives the C
    heap back as it was before setup: the block of the ring is released, once,
    after the ring itself was handed back to the kernel, and the handle holds
    the null pointer. *)
Theorem setup_then_teardown (junk r : io_uring) (entries : Z) (w : world) :
  exists v p w',
    (v_uring ← ocaml_uring_setup junk (Init_ok r) entries; ocaml_uring_exit v_uring) w
      = Returns Val_unit w' /\
    c_heap w' = c_heap w /\
    customs w' = <[v := NULL]> (customs w) /\
    customs w !! v = None /\
    trace w' = trace w ++ [Ev_queue_exit (ring_fd r); Ev_stat_free p].
Proof.
  set (v := fresh (dom (customs w))).
  set (p := fresh ({[NULL]} ∪ dom (c_heap w))).
  exists v, p. eexists.
  run (setup_ok_run junk r entries w). fold v p.
  split.
  { apply exit_live. split; [apply lookup_insert_eq|].
    split; [apply fresh_addr_not_null|apply lookup_insert_eq]. }
  unfold after_exit; cbn.
  split; [apply delete_insert_id, fresh_addr_unused|].
  split; [apply insert_insert_eq|].
  split; [apply fresh_custom_unused|reflexivity].
Qed.

(** ** Registration and submit *)

(** X4.  With [ret] the int that the kernel's answer becomes, buffer
    registration and unregistration on a live ring return unit when [ret] is
    0 and raise [Unix_error] with the code [- ret] otherwise; both report the
    error under the name of [io_uring_register_buffers]; whatever the
    bigarray, and in every case, they leave the state as it was. *)
Theorem register_buffer_outcomes (w : world) (v : positive) (p : Z) (r : io_uring)
    (kret : Z) (v_ba : bigarray) :
  live_ring w v p r ->
  (s32 kret = 0 ->
     ocaml_uring_register_ba kret v v_ba w = Returns Val_unit w /\
     ocaml_uring_unregister_ba kret v v_ba w = Returns Val_unit w) /\
  (s32 kret <> 0 ->
     ocaml_uring_register_ba kret v v_ba w =
       Raises (Unix_error (- s32 kret) "io_uring_register_buffers") w /\
     ocaml_uring_unregister_ba kret v v_ba w =
       Raises (Unix_error (- s32 kret) "io_uring_register_buffers") w).
Proof.
  intros (Hv & Hp & Hr).
  assert (R : ocaml_uring_register_ba kret v v_ba w =
              if negb (s32 kret =? 0)
              then Raises (Unix_error (- s32 kret) "io_uring_register_buffers") w
              else Returns Val_unit w).
  { unfold ocaml_uring_register_ba, Ring_val. run (custom_get_some _ _ _ Hv).
    bind_step. unfold io_uring_register_buffers. run (ring_get_live _ _ _ Hp Hr).
    unfold mret at 1, stub_ret at 1. destruct (s32 kret =? 0); reflexivity. }
  assert (U : ocaml_uring_unregister_ba kret v v_ba w =
              if negb (s32 kret =? 0)
              then Raises (Unix_error (- s32 kret) "io_uring_register_buffers") w
              else Returns Val_unit w).
  { unfold ocaml_uring_unregister_ba, Ring_val. run (custom_get_some _ _ _ Hv).
    bind_step. unfold io_uring_unregister_buffers. run (ring_get_live _ _ _ Hp Hr).
    unfold mret at 1, stub_ret at 1. destruct (s32 kret =? 0); reflexivity. }
  rewrite R, U. split; intros H.
  - rewrite H. split; reflexivity.
  - destruct (Z.eqb_spec (s32 kret) 0) as [E|_]; [contradiction|]. split; reflexivity.
Qed.

Lemma register_buffer_outcomes_witness :
  live_ring ex_world 1 4096 ex_ring /\
  ocaml_uring_unregister_ba (-6) 1 (Bigarray 0 0) ex_world =
    Raises (Unix_error 6 "io_uring_register_buffers") ex_world.
Proof.
  split; [exact ex_world_live|].
  refine (proj2 (proj2 (register_buffer_outcomes ex_world 1 4096 ex_ring (-6) (Bigarray 0 0)
                          ex_world_live) _)).
  vm_compute. discriminate.
Defined.

(** X5.  Submit on a live ring never raises: whatever int the library
    answers, the stub returns it, a negative one when the kernel refused.
    Afterwards the ring is still live, every prepared entry has been
    published ([sqe_head] has caught up with [sqe_tail]) and the entries are
    untouched.  The completion ring has changed only by the completions the
    kernel posted while the call was in the kernel: when there is room for
    them, they are queued, in the order posted, behind the completions that
    were unseen, none of which is lost. *)
Theorem submit_returns_count (w : world) (v : positive) (p : Z) (r : io_uring) (kret : Z)
    (posted : list io_uring_cqe) :
  live_ring w v p r ->
  - 2 ^ 31 <= kret < 2 ^ 31 ->
  exists r',
    ocaml_uring_submit kret posted v w = Returns kret (with_ring w p r') /\
    live_ring (with_ring w p r') v p r' /\
    sqe_head (sq r') = sqe_tail (sq r') /\
    sqe_tail (sq r') = sqe_tail (sq r) /\
    sqes (sq r') = sqes (sq r) /\
    cq r' = cq_after posted (cq r) /\
    (forall n, cq_inv n (cq r) -> cq_count (cq r) + Z.of_nat (length posted) <= 2 ^ n ->
       cq_unseen (cq r') = cq_unseen (cq r) ++ posted /\ cq_inv n (cq r')).
Proof.
  intros (Hv & Hp & Hr) Hk. eexists. split; [|split; [|split; [|split; [|split; [|split]]]]].
  - unfold ocaml_uring_submit, Ring_val. run (custom_get_some _ _ _ Hv).
    bind_step. unfold io_uring_submit. run (ring_get_live _ _ _ Hp Hr).
    run (ring_set_live _ _ _ _ Hp Hr).
    bind_step. erewrite kernel_posts_live; [|exact Hp|apply with_block_lookup].
    unfold with_ring. rewrite with_block_twice. unfold mret, stub_ret.
    unfold s32. rewrite (wrap_signed_small 32) by (change (2 ^ (32 - 1)) with (2 ^ 31); lia).
    unfold Val_int. rewrite (wrap_signed_small 63).
    + reflexivity.
    + lia.
    + change (2 ^ (63 - 1)) with 4611686018427387904.
      change (2 ^ 31) with 2147483648 in Hk. lia.
  - split; [exact Hv|]. split; [exact Hp|]. apply with_block_lookup.
  - reflexivity.
  - reflexivity.
  - reflexivity.
  - reflexivity.
  - intros n Hn Hroom. destruct (cq_after_queue n posted (cq r) Hn Hroom) as (Hu & Hi & _).
    split; [exact Hu|exact Hi].
Qed.

(** The kernel refuses ([-16] is [-EBUSY]) after it has posted one
    completion: the stub returns -16 and the completion is in the ring. *)
Lemma submit_returns_count_witness :
  live_ring ex_world 1 4096 ex_ring /\
  - 2 ^ 31 <= -16 < 2 ^ 31 /\
  exists r',
    ocaml_uring_submit (-16) [Cqe 7 11 0] 1 ex_world = Returns (-16) (with_ring ex_world 4096 r') /\
    cq_unseen (cq r') = [Cqe 7 11 0].
Proof.
  assert (Hk : - 2 ^ 31 <= -16 < 2 ^ 31) by (simpl; lia).
  split; [exact ex_world_live|]. split; [exact Hk|].
  destruct (submit_returns_count ex_world 1 4096 ex_ring (-16) [Cqe 7 11 0] ex_world_live Hk)
    as (r' & Hret & _ & _ & _ & _ & Hcq & _).
  exists r'. split; [exact Hret|]. rewrite Hcq. reflexivity.
Defined.

(** ** What an encoder touches, and how many entries a ring takes *)

Section EncodeSteps.
Implicit Types (w : world) (p q : Z) (r : io_uring) (v : positive) (s : io_uring_sq).

Lemma before_slot_facts w v p r op :
  live_ring w v p r -> handles_ok w op ->
  customs (before_slot op w) = customs w /\
  trace (before_slot op w) = trace w /\
  c_heap (before_slot op w) !! p = Some (Bring r) /\
  (forall a, written_handle op w <> Some a ->
     c_heap (before_slot op w) !! a = c_heap w !! a) /\
  socks_kept w (before_slot op w).
Proof.
  intros (Hv & Hp & Hr) Hh.
  assert (Same : before_slot op w = w ->
    customs (before_slot op w) = customs w /\
    trace (before_slot op w) = trace w /\
    c_heap (before_slot op w) !! p = Some (Bring r) /\
    (forall a, written_handle op w <> Some a ->
       c_heap (before_slot op w) !! a = c_heap w !! a) /\
    socks_kept w (before_slot op w)).
  { intros ->. repeat split; try assumption. intros q d Hd. exists d. split; [exact Hd|reflexivity]. }
  destruct op; try (apply Same; reflexivity).
  clear Same. simpl in Hh. destruct Hh as (q & d & Ls). pose proof Ls as (Hvs & Hq & Hd).
  cbn [before_slot written_handle]. unfold presized.
  rewrite (handle_ptr_some _ _ _ Hvs), (handle_sock_live _ _ _ _ Ls).
  assert (Hqp : q <> p) by exact (live_blocks_differ _ _ _ _ _ Hr Hd).
  split; [reflexivity|]. split; [reflexivity|]. split; [|split].
  - unfold with_sock. rewrite with_block_lookup_ne by exact Hqp. exact Hr.
  - intros a Ha. unfold with_sock. apply with_block_lookup_ne. intros ->. apply Ha. reflexivity.
  - intros q2 d2 Hd2. destruct (Z.eq_dec q q2) as [<-|Hne].
    + eexists. split; [apply with_block_lookup|].
      rewrite Hd in Hd2. injection Hd2 as <-. reflexivity.
    + exists d2. split; [|reflexivity]. unfold with_sock.
      rewrite with_block_lookup_ne by exact Hne. exact Hd2.
Qed.

Lemma handles_ok_kept w w' op :
  customs w' = customs w -> socks_kept w w' -> handles_ok w op -> handles_ok w' op.
Proof.
  intros Hc Hs. destruct op; simpl; try (intros; exact I).
  - rewrite Hc. intros H; exact H.
  - intros (q & d & Hv & Hq & Hd). destruct (Hs q d Hd) as (d' & Hd' & _).
    exists q, d'. split; [rewrite Hc; exact Hv|]. split; assumption.
  - intros (q & d & Hv & Hq & Hd). destruct (Hs q d Hd) as (d' & Hd' & _).
    exists q, d'. split; [rewrite Hc; exact Hv|]. split; assumption.
Qed.

Lemma socks_kept_with_ring w w1 p r r' :
  c_heap w1 !! p = Some (Bring r) -> socks_kept w w1 -> socks_kept w (with_ring w1 p r').
Proof.
  intros Hr Hs q d Hd. destruct (Hs q d Hd) as (d' & Hd' & Hb).
  exists d'. split; [|exact Hb]. unfold with_ring. rewrite with_block_lookup_ne; [exact Hd'|].
  intros ->. congruence.
Qed.

Lemma sq_push_wf s e : sq_wf s -> sq_wf (sq_push s e).
Proof.
  intros (Ht & Hm & Hl). unfold sq_wf, sq_push; cbn.
  split; [apply (wrap_unsigned_range 32); lia|]. split; [exact Hm|].
  rewrite length_insert. exact Hl.
Qed.

(** One call of an encoder, with everything it keeps. *)
Lemma encode_step w v p r op id :
  live_ring w v p r -> sq_wf (sq r) -> handles_ok w op ->
  exists r' w',
    encode op v id w = Returns (negb (sq_full (sq r))) w' /\
    live_ring w' v p r' /\ sq_wf (sq r') /\
    customs w' = customs w /\ trace w' = trace w /\ socks_kept w w' /\
    (forall a, a <> p -> written_handle op w <> Some a -> c_heap w' !! a = c_heap w !! a) /\
    r' = (if sq_full (sq r) then r else set_sq r (sq_push (sq r) (entry_of op id w))).
Proof.
  intros L Hwf Hh. pose proof L as (Hv & Hp & Hr).
  destruct (before_slot_facts w v p r op L Hh) as (Bc & Bt & Br & Bo & Bs).
  rewrite (encode_live w v p r op id L Hwf Hh).
  destruct (sq_full (sq r)).
  - exists r, (before_slot op w). split; [reflexivity|].
    split; [split; [rewrite Bc; exact Hv|split; [exact Hp|exact Br]]|].
    split; [exact Hwf|]. split; [exact Bc|]. split; [exact Bt|]. split; [exact Bs|].
    split; [|reflexivity]. intros a _ Ha. apply Bo, Ha.
  - exists (set_sq r (sq_push (sq r) (entry_of op id w))),
      (with_ring (before_slot op w) p (set_sq r (sq_push (sq r) (entry_of op id w)))).
    split; [reflexivity|].
    split; [split; [cbn; rewrite Bc; exact Hv|split; [exact Hp|apply with_block_lookup]]|].
    split; [apply sq_push_wf, Hwf|]. split; [cbn; exact Bc|]. split; [cbn; exact Bt|].
    split; [apply (socks_kept_with_ring _ _ _ _ _ Br Bs)|].
    split; [|reflexivity]. intros a Hap Ha. unfold with_ring.
    rewrite with_block_lookup_ne by (intros E; apply Hap; symmetry; exact E). apply Bo, Ha.
Qed.

End EncodeSteps.

(** X6.  An encoder on a live ring touches nothing but the slot it was
    handed and the tail of the submission ring (and, for accept, the stored
    length of its handle): the handles, the trace, every other block of the C
    heap, the completion ring, the ring's descriptor and every other slot of
    the submission ring are as before. *)
Theorem encode_frame (w : world) (v : positive) (p : Z) (r : io_uring)
    (op : operation) (id : Z) :
  live_ring w v p r ->
  sq_wf (sq r) ->
  handles_ok w op ->
  exists b r' w',
    encode op v id w = Returns b w' /\
    live_ring w' v p r' /\
    customs w' = customs w /\
    trace w' = trace w /\
    cq r' = cq r /\
    ring_fd r' = ring_fd r /\
    sq_khead (sq r') = sq_khead (sq r) /\
    (forall i, i <> sq_slot (sq r) -> sqes (sq r') !! i = sqes (sq r) !! i) /\
    (forall a, a <> p -> written_handle op w <> Some a -> c_heap w' !! a = c_heap w !! a) /\
    (forall q d, c_heap w !! q = Some (Bsock d) ->
       exists d', c_heap w' !! q = Some (Bsock d') /\ sock_addr_addr d' = sock_addr_addr d).
Proof.
  intros L Hwf Hh.
  destruct (encode_step w v p r op id L Hwf Hh) as (r' & w' & He & L' & _ & Hc & Ht & Hs & Ho & Hr').
  exists (negb (sq_full (sq r))), r', w'.
  split; [exact He|]. split; [exact L'|]. split; [exact Hc|]. split; [exact Ht|].
  assert (R : cq r' = cq r /\ ring_fd r' = ring_fd r /\ sq_khead (sq r') = sq_khead (sq r) /\
              forall i, i <> sq_slot (sq r) -> sqes (sq r') !! i = sqes (sq r) !! i).
  { rewrite Hr'. destruct (sq_full (sq r)); [repeat split|].
    split; [reflexivity|]. split; [reflexivity|]. split; [reflexivity|].
    intros i Hi. cbn. apply list_lookup_insert_ne. intros E; apply Hi; symmetry; exact E. }
  destruct R as (R1 & R2 & R3 & R4).
  do 4 (split; [assumption|]). split; [exact Ho|exact Hs].
Qed.

Lemma encode_frame_witness :
  live_ring ex_world_sq_full 1 4096 ex_ring_sq_full /\
  sq_wf (sq ex_ring_sq_full) /\
  handles_ok ex_world_sq_full (Op_connect 3 2) /\
  exists b w',
    encode (Op_connect 3 2) 1 9 ex_world_sq_full = Returns b w' /\
    customs w' = customs ex_world_sq_full /\
    trace w' = trace ex_world_sq_full.
Proof.
  assert (Hh : handles_ok ex_world_sq_full (Op_connect 3 2)).
  { exists 8192, ex_sock. exact ex_world_sq_full_sock. }
  split; [exact ex_world_sq_full_live|]. split; [exact ex_ring_sq_full_wf|]. split; [exact Hh|].
  destruct (encode_frame ex_world_sq_full 1 4096 ex_ring_sq_full (Op_connect 3 2) 9
              ex_world_sq_full_live ex_ring_sq_full_wf Hh)
    as (b & r' & w' & He & _ & Hc & Ht & _).
  exists b, w'. repeat split; assumption.
Defined.

Section Capacity.
Implicit Types (w : world) (p : Z) (r : io_uring) (v : positive) (s : io_uring_sq).

Lemma pending_push s e : sq_pending (sq_push s e) = u32 (sq_pending s + 1).
Proof.
  unfold sq_pending, sq_push, u32, wrap_unsigned; cbn.
  rewrite Zminus_mod_idemp_l, Zplus_mod_idemp_l. f_equal. lia.
Qed.

Lemma sq_full_pending s : sq_full s = negb (u32 (sq_pending s + 1) <=? sq_kring_entries s).
Proof.
  unfold sq_full, sq_pending, u32, wrap_unsigned.
  rewrite Zminus_mod_idemp_l, Zplus_mod_idemp_l.
  replace (sqe_tail s + 1 - sq_khead s) with (sqe_tail s - sq_khead s + 1) by lia.
  reflexivity.
Qed.

Lemma sq_pending_range s : 0 <= sq_pending s < 2 ^ 32.
Proof. apply (wrap_unsigned_range 32). lia. Qed.

(** With at most [entries] entries pending, the ring is full exactly when
    [entries] are. *)
Lemma sq_full_iff s :
  sq_pending s <= sq_kring_entries s < 2 ^ 32 - 1 ->
  sq_full s = true <-> sq_pending s = sq_kring_entries s.
Proof.
  intros H. pose proof (sq_pending_range s) as Hr.
  rewrite sq_full_pending, (wrap_unsigned_small 32) by lia.
  destruct (Z.leb_spec (sq_pending s + 1) (sq_kring_entries s)); simpl; split; intros; try lia;
    try discriminate; reflexivity.
Qed.

Lemma encode_list_capacity_gen ops : forall w v p r,
  live_ring w v p r ->
  sq_wf (sq r) ->
  Forall (fun x => handles_ok w (fst x)) ops ->
  sq_pending (sq r) <= sq_kring_entries (sq r) < 2 ^ 32 - 1 ->
  exists r' w',
    encode_list ops v w =
      Returns (replicate (min (length ops)
                              (Z.to_nat (sq_kring_entries (sq r) - sq_pending (sq r)))) true
               ++ replicate (length ops
                             - Z.to_nat (sq_kring_entries (sq r) - sq_pending (sq r))) false)
              w' /\
    live_ring w' v p r' /\
    sq_kring_entries (sq r') = sq_kring_entries (sq r) /\
    sq_pending (sq r') =
      sq_pending (sq r)
      + Z.of_nat (min (length ops) (Z.to_nat (sq_kring_entries (sq r) - sq_pending (sq r)))).
Proof.
  induction ops as [|[op id] ops IH]; intros w v p r L Hwf Hh Hcap.
  - exists r, w. split; [reflexivity|]. split; [exact L|]. split; [reflexivity|]. simpl. lia.
  - apply Forall_cons in Hh as [Hop Hrest]. simpl in Hop.
    destruct (encode_step w v p r op id L Hwf Hop)
      as (r1 & w1 & He & L1 & Hwf1 & Hc & _ & Hs & _ & Hr1).
    assert (Hrest1 : Forall (fun x => handles_ok w1 (fst x)) ops).
    { eapply Forall_impl; [exact Hrest|]. intros x Hx.
      exact (handles_ok_kept _ _ _ Hc Hs Hx). }
    pose proof (sq_pending_range (sq r)) as Hrange.
    pose proof (sq_full_iff (sq r) Hcap) as Hfull.
    simpl encode_list. bind_step. rewrite He.
    destruct (sq_full (sq r)) eqn:Ef.
    + (* full: the ring is as it was *)
      subst r1. assert (Hk : sq_pending (sq r) = sq_kring_entries (sq r)) by (apply Hfull; reflexivity).
      destruct (IH w1 v p r L1 Hwf Hrest1 Hcap) as (r2 & w2 & Hl & L2 & He2 & Hp2).
      exists r2, w2. bind_step. rewrite Hl.
      rewrite Hk, Z.sub_diag in *. simpl Z.to_nat in *.
      rewrite Nat.min_0_r in *. rewrite Nat.sub_0_r in *.
      split; [reflexivity|]. split; [exact L2|]. split; [exact He2|]. simpl in Hp2 |- *. lia.
    + (* a slot is free: one more entry is pending *)
      assert (Hk : sq_pending (sq r) < sq_kring_entries (sq r)).
      { destruct (Z.eq_dec (sq_pending (sq r)) (sq_kring_entries (sq r))) as [E|E]; [|lia].
        apply Hfull in E. discriminate. }
      subst r1.
      set (r1 := set_sq r (sq_push (sq r) (entry_of op id w))) in *.
      assert (Hp1 : sq_pending (sq r1) = sq_pending (sq r) + 1).
      { unfold r1. cbn [sq set_sq]. rewrite pending_push. apply wrap_unsigned_small. lia. }
      assert (He1 : sq_kring_entries (sq r1) = sq_kring_entries (sq r)) by reflexivity.
      assert (Hcap1 : sq_pending (sq r1) <= sq_kring_entries (sq r1) < 2 ^ 32 - 1) by lia.
      destruct (IH w1 v p r1 L1 Hwf1 Hrest1 Hcap1) as (r2 & w2 & Hl & L2 & He2 & Hp2).
      exists r2, w2. bind_step. rewrite Hl. rewrite He1, Hp1 in *.
      replace (Z.to_nat (sq_kring_entries (sq r) - sq_pending (sq r)))
        with (S (Z.to_nat (sq_kring_entries (sq r) - (sq_pending (sq r) + 1)))) by lia.
      split; [reflexivity|]. split; [exact L2|]. split; [exact He2|].
      rewrite Hp2. simpl length. rewrite <- Nat.succ_min_distr. lia.
Qed.

End Capacity.

(** X7.  A caller encodes operations one after the other without
    submitting.  With [entries] the size of the submission ring and [pending]
    the entries already prepared, the first [entries - pending] encoders
    return true and every later one returns false; the ring then holds that
    many more pending entries. *)
Theorem encode_list_capacity (w : world) (v : positive) (p : Z) (r : io_uring)
    (ops : list (operation * Z)) :
  live_ring w v p r ->
  sq_wf (sq r) ->
  Forall (fun x => handles_ok w (fst x)) ops ->
  sq_pending (sq r) <= sq_kring_entries (sq r) < 2 ^ 32 - 1 ->
  let free := Z.to_nat (sq_kring_entries (sq r) - sq_pending (sq r)) in
  exists r' w',
    encode_list ops v w =
      Returns (replicate (min (length ops) free) true ++ replicate (length ops - free) false) w' /\
    live_ring w' v p r' /\
    sq_pending (sq r') = sq_pending (sq r) + Z.of_nat (min (length ops) free).
Proof.
  intros L Hwf Hh Hcap free.
  destruct (encode_list_capacity_gen ops w v p r L Hwf Hh Hcap) as (r' & w' & Hl & L' & _ & Hp).
  exists r', w'. split; [exact Hl|]. split; [exact L'|exact Hp].
Qed.

Lemma encode_list_capacity_witness :
  live_ring ex_world 1 4096 ex_ring /\
  sq_wf (sq ex_ring) /\
  Forall (fun x => handles_ok ex_world (fst x)) [(Op_nop, 1); (Op_close 3, 2); (Op_nop, 3)] /\
  sq_pending (sq ex_ring) <= sq_kring_entries (sq ex_ring) < 2 ^ 32 - 1 /\
  exists w',
    encode_list [(Op_nop, 1); (Op_close 3, 2); (Op_nop, 3)] 1 ex_world
      = Returns [true; true; false] w'.
Proof.
  assert (Hh : Forall (fun x => handles_ok ex_world (fst x))
                 [(Op_nop, 1); (Op_close 3, 2); (Op_nop, 3)]).
  { repeat constructor. }
  assert (Hcap : sq_pending (sq ex_ring) <= sq_kring_entries (sq ex_ring) < 2 ^ 32 - 1).
  { vm_compute. split; [discriminate|reflexivity]. }
  split; [exact ex_world_live|]. split; [exact ex_ring_sq_wf|]. split; [exact Hh|].
  split; [exact Hcap|].
  destruct (encode_list_capacity ex_world 1 4096 ex_ring _ ex_world_live ex_ring_sq_wf Hh Hcap)
    as (r' & w' & Hl & _).
  exists w'. exact Hl.
Defined.

(** ** From an encoder to a retrieval *)



(** ** Resource handles: making, finalising, using *)

Section Handles.
Implicit Types (w : world) (p q : Z) (r : io_uring) (v : positive).

(** The world once a handle [v] has been made for a block [b] at [q]. *)
Lemma make_sockaddr_run junk a w :
  ocaml_uring_make_sockaddr junk a w =
    let v := fresh (dom (customs w)) in
    let q := fresh ({[NULL]} ∪ dom (c_heap w)) in
    match get_sockaddr a junk with
    | inr d => Returns v (World (<[v := q]> (customs w)) (<[q := Bsock d]> (c_heap w)) (trace w))
    | inl e => Raises e (World (<[v := q]> (customs w)) (<[q := Bsock junk]> (c_heap w)) (trace w))
    end.
Proof.
  cbv zeta.
  set (v := fresh (dom (customs w))).
  set (q := fresh ({[NULL]} ∪ dom (c_heap w))).
  assert (Hq : q <> NULL) by apply fresh_addr_not_null.
  unfold ocaml_uring_make_sockaddr.
  bind_step. unfold caml_alloc_custom_mem. fold v.
  bind_step. unfold custom_set at 1. cbn [customs c_heap trace]. rewrite lookup_insert_eq.
  bind_step. unfold caml_stat_alloc. cbn [customs c_heap trace]. fold q.
  bind_step. unfold custom_set at 1. cbn [customs c_heap trace]. rewrite lookup_insert_eq.
  bind_step. erewrite sock_get_live; [|exact Hq|cbn [c_heap]; apply lookup_insert_eq].
  rewrite !insert_insert_eq.
  bind_step. destruct (get_sockaddr a junk) as [e|d]; cbn [lift_error].
  - reflexivity.
  - unfold mret at 1, stub_ret at 1. bind_step.
    erewrite sock_set_live; [|exact Hq|cbn [c_heap]; apply lookup_insert_eq].
    unfold with_sock, with_block; cbn. rewrite insert_insert_eq. reflexivity.
Qed.

Lemma make_open_how_run flags mode resolve path w :
  ocaml_uring_make_open_how flags mode resolve path w =
    let v := fresh (dom (customs w)) in
    let q := fresh ({[NULL]} ∪ dom (c_heap w)) in
    Returns v
      (World (<[v := q]> (customs w))
             (<[q := Bhow (OpenHowData (u64 flags) (u64 mode) (u64 resolve) (path ++ [x00]))]>
                (c_heap w))
             (trace w)).
Proof.
  cbv zeta.
  set (v := fresh (dom (customs w))).
  set (q := fresh ({[NULL]} ∪ dom (c_heap w))).
  unfold ocaml_uring_make_open_how.
  bind_step. unfold caml_alloc_custom_mem. fold v.
  bind_step. unfold custom_set at 1. cbn [customs c_heap trace]. rewrite lookup_insert_eq.
  bind_step. unfold caml_stat_alloc. cbn [customs c_heap trace]. fold q.
  bind_step. unfold custom_set at 1. cbn [customs c_heap trace]. rewrite lookup_insert_eq.
  rewrite !insert_insert_eq. reflexivity.
Qed.

(** A finaliser on a handle that holds a live block, and on one that holds
    the null pointer. *)
Lemma finalize_sock_addr_live w v q b :
  customs w !! v = Some q -> q <> NULL -> c_heap w !! q = Some b ->
  finalize_sock_addr v w =
    Returns tt (World (<[v := NULL]> (customs w)) (delete q (c_heap w))
                      (trace w ++ [Ev_stat_free q])).
Proof.
  intros Hv Hq Hb. unfold finalize_sock_addr, Sock_addr_val.
  run (custom_get_some _ _ _ Hv). bind_step. unfold caml_stat_free.
  destruct (Z.eqb_spec q NULL) as [E|_]; [contradiction|]. rewrite Hb.
  unfold custom_set. cbn [customs c_heap trace]. rewrite Hv. reflexivity.
Qed.

Lemma finalize_sock_addr_null w v :
  customs w !! v = Some NULL -> finalize_sock_addr v w = Returns tt w.
Proof.
  intros Hv. unfold finalize_sock_addr, Sock_addr_val.
  run (custom_get_some _ _ _ Hv). bind_step. unfold caml_stat_free. cbn.
  unfold custom_set. rewrite Hv. rewrite insert_id by exact Hv. rewrite world_eta. reflexivity.
Qed.

Lemma finalize_same v : finalize_open_how v = finalize_sock_addr v.
Proof. reflexivity. Qed.

End Handles.

(** X9.  A socket-address handle never leaks its block, whether the
    address was accepted or not.  Making a handle from any address either
    returns the handle or raises the error of the conversion; in both cases
    the handle exists and owns the block, so that the finaliser releases it:
    the C heap is then as it was before the handle was made.  A second run of
    the finaliser changes nothing. *)
Theorem sockaddr_handle_released (junk : sock_addr_data) (a : sockaddr) (w : world) :
  exists v w1 w2,
    (ocaml_uring_make_sockaddr junk a w = Returns v w1 \/
     exists e, ocaml_uring_make_sockaddr junk a w = Raises e w1) /\
    customs w !! v = None /\
    finalize_sock_addr v w1 = Returns tt w2 /\
    c_heap w2 = c_heap w /\
    customs w2 !! v = Some NULL /\
    finalize_sock_addr v w2 = Returns tt w2.
Proof.
  set (v := fresh (dom (customs w))).
  set (q := fresh ({[NULL]} ∪ dom (c_heap w))).
  assert (Hq : q <> NULL) by apply fresh_addr_not_null.
  pose proof (make_sockaddr_run junk a w) as Hm. cbv zeta in Hm. fold v q in Hm.
  assert (F : forall b,
    let w1 := World (<[v := q]> (customs w)) (<[q := b]> (c_heap w)) (trace w) in
    exists w2, finalize_sock_addr v w1 = Returns tt w2 /\ c_heap w2 = c_heap w /\
               customs w2 !! v = Some NULL /\ finalize_sock_addr v w2 = Returns tt w2).
  { intros b w1. eexists. split.
    - apply (finalize_sock_addr_live w1 v q b); [apply lookup_insert_eq|exact Hq|apply lookup_insert_eq].
    - cbn. split; [apply delete_insert_id, fresh_addr_unused|].
      split; [apply lookup_insert_eq|].
      apply finalize_sock_addr_null. cbn. apply lookup_insert_eq. }
  destruct (get_sockaddr a junk) as [e|d].
  - destruct (F (Bsock junk)) as (w2 & H1 & H2 & H3 & H4).
    exists v. eexists. exists w2. split; [right; exists e; exact Hm|].
    split; [apply fresh_custom_unused|]. repeat split; assumption.
  - destruct (F (Bsock d)) as (w2 & H1 & H2 & H3 & H4).
    exists v. eexists. exists w2. split; [left; exact Hm|].
    split; [apply fresh_custom_unused|]. repeat split; assumption.
Qed.

(** X10.  An open-options handle owns one block that holds the three
    options and, after them, the path with its terminating NUL; its finaliser
    releases that block and gives the C heap back as it was; a second run of
    the finaliser changes nothing. *)
Theorem open_how_handle_released (v_flags v_mode v_resolve : Z) (v_path : list byte)
    (w : world) :
  exists v q w1 w2,
    ocaml_uring_make_open_how v_flags v_mode v_resolve v_path w = Returns v w1 /\
    customs w !! v = None /\
    customs w1 !! v = Some q /\ q <> NULL /\ c_heap w !! q = None /\
    c_heap w1 !! q =
      Some (Bhow (OpenHowData (u64 v_flags) (u64 v_mode) (u64 v_resolve) (v_path ++ [x00]))) /\
    finalize_open_how v w1 = Returns tt w2 /\
    c_heap w2 = c_heap w /\
    finalize_open_how v w2 = Returns tt w2.
Proof.
  set (v := fresh (dom (customs w))).
  set (q := fresh ({[NULL]} ∪ dom (c_heap w))).
  assert (Hq : q <> NULL) by apply fresh_addr_not_null.
  exists v, q. eexists. eexists.
  split; [apply make_open_how_run|]. cbv zeta. fold v q.
  split; [apply fresh_custom_unused|].
  split; [apply lookup_insert_eq|]. split; [exact Hq|]. split; [apply fresh_addr_unused|].
  split; [apply lookup_insert_eq|].
  rewrite finalize_same. split.
  - eapply finalize_sock_addr_live; [apply lookup_insert_eq|exact Hq|apply lookup_insert_eq].
  - cbn. split; [apply delete_insert_id, fresh_addr_unused|].
    apply finalize_sock_addr_null. cbn. apply lookup_insert_eq.
Qed.

Section HandleFrames.
Implicit Types (w : world) (p q : Z) (r : io_uring) (v : positive).

(** A new handle on a new block leaves the live handles alone. *)
Lemma new_handle_keeps_ring w v p r b :
  live_ring w v p r ->
  live_ring (World (<[fresh (dom (customs w)) := fresh ({[NULL]} ∪ dom (c_heap w))]> (customs w))
                   (<[fresh ({[NULL]} ∪ dom (c_heap w)) := b]> (c_heap w)) (trace w)) v p r.
Proof.
  intros (Hv & Hp & Hr). pose proof (fresh_custom_unused (customs w)) as Fv.
  pose proof (fresh_addr_unused (c_heap w)) as Fq.
  split; [|split; [exact Hp|]]; cbn.
  - rewrite lookup_insert_ne; [exact Hv|]. intros E. rewrite E in Fv. congruence.
  - rewrite lookup_insert_ne; [exact Hr|]. intros E. rewrite E in Fq. congruence.
Qed.

Lemma new_handle_keeps_sock w v q d b :
  live_sockaddr w v q d ->
  live_sockaddr
    (World (<[fresh (dom (customs w)) := fresh ({[NULL]} ∪ dom (c_heap w))]> (customs w))
           (<[fresh ({[NULL]} ∪ dom (c_heap w)) := b]> (c_heap w)) (trace w)) v q d.
Proof.
  intros (Hv & Hq & Hd). pose proof (fresh_custom_unused (customs w)) as Fv.
  pose proof (fresh_addr_unused (c_heap w)) as Fq.
  split; [|split; [exact Hq|]]; cbn.
  - rewrite lookup_insert_ne; [exact Hv|]. intros E. rewrite E in Fv. congruence.
  - rewrite lookup_insert_ne; [exact Hd|]. intros E. rewrite E in Fq. congruence.
Qed.

Lemma new_handle_live w d :
  live_sockaddr
    (World (<[fresh (dom (customs w)) := fresh ({[NULL]} ∪ dom (c_heap w))]> (customs w))
           (<[fresh ({[NULL]} ∪ dom (c_heap w)) := Bsock d]> (c_heap w)) (trace w))
    (fresh (dom (customs w))) (fresh ({[NULL]} ∪ dom (c_heap w))) d.
Proof.
  split; [apply lookup_insert_eq|]. split; [apply fresh_addr_not_null|apply lookup_insert_eq].
Qed.

Lemma native_length_range a : valid_sockaddr a -> 0 <= native_length a < 2 ^ 32.
Proof.
  destruct a as [path|a port]; simpl.
  - intros [Hl _]. unfold offsetof_sun_path, sizeof_sun_path in *. lia.
  - intros _. destruct (Z.of_nat (length a) =? 16); vm_compute; split; congruence.
Qed.

End HandleFrames.

(** X11.  Two socket-address handles made one after the other are
    different values and own different blocks: each one gives back its own
    address, the second not disturbing the first. *)
Theorem two_handles_independent (junk1 junk2 : sock_addr_data) (a1 a2 : sockaddr) (w : world) :
  valid_sockaddr a1 ->
  valid_sockaddr a2 ->
  exists v1 v2 w2,
    (v1 ← ocaml_uring_make_sockaddr junk1 a1;
     v2 ← ocaml_uring_make_sockaddr junk2 a2;
     mret (v1, v2)) w = Returns (v1, v2) w2 /\
    v1 <> v2 /\
    handle_ptr w2 v1 <> handle_ptr w2 v2 /\
    ocaml_uring_extract_sockaddr v1 w2 = Returns a1 w2 /\
    ocaml_uring_extract_sockaddr v2 w2 = Returns a2 w2.
Proof.
  intros Ha1 Ha2.
  destruct (get_alloc_roundtrip a1 junk1 Ha1) as (d1 & Hg1 & _ & _ & Hr1).
  destruct (get_alloc_roundtrip a2 junk2 Ha2) as (d2 & Hg2 & _ & _ & Hr2).
  pose proof (make_sockaddr_run junk1 a1 w) as M1. cbv zeta in M1. rewrite Hg1 in M1.
  set (w1 := World _ _ _) in M1.
  pose proof (make_sockaddr_run junk2 a2 w1) as M2. cbv zeta in M2. rewrite Hg2 in M2.
  set (w2 := World _ _ _) in M2.
  pose proof (new_handle_live w d1) as L1. fold w1 in L1.
  pose proof (new_handle_live w1 d2) as L2. fold w2 in L2.
  pose proof (new_handle_keeps_sock w1 _ _ _ (Bsock d2) L1) as L1'. fold w2 in L1'.
  exists (fresh (dom (customs w))), (fresh (dom (customs w1))), w2.
  split; [run M1; run M2; reflexivity|].
  destruct L1' as (Hv1 & Hq1 & Hd1). destruct L2 as (Hv2 & Hq2 & Hd2).
  pose proof (fresh_custom_unused (customs w1)) as F1.
  pose proof (fresh_addr_unused (c_heap w1)) as F2.
  destruct L1 as (Hv1o & _ & Hd1o).
  split; [intros E; rewrite <- E in F1; congruence|].
  split.
  { rewrite (handle_ptr_some _ _ _ Hv1), (handle_ptr_some _ _ _ Hv2).
    intros E. rewrite <- E in F2. congruence. }
  split.
  - rewrite (extract_sockaddr_live w2 _ _ d1 (conj Hv1 (conj Hq1 Hd1))).
    rewrite Hr1. reflexivity.
  - rewrite (extract_sockaddr_live w2 _ _ d2 (conj Hv2 (conj Hq2 Hd2))).
    rewrite Hr2. reflexivity.
Qed.

Lemma two_handles_independent_witness :
  valid_sockaddr (ADDR_UNIX ["a"; "b"]%byte) /\
  valid_sockaddr (ADDR_INET [x01; x02; x03; x04] 80) /\
  exists v1 v2 w2,
    (v1 ← ocaml_uring_make_sockaddr ex_sock (ADDR_UNIX ["a"; "b"]%byte);
     v2 ← ocaml_uring_make_sockaddr ex_sock (ADDR_INET [x01; x02; x03; x04] 80);
     mret (v1, v2)) ex_world = Returns (v1, v2) w2 /\
    v1 <> v2 /\
    ocaml_uring_extract_sockaddr v1 w2 = Returns (ADDR_UNIX ["a"; "b"]%byte) w2.
Proof.
  assert (H1 : valid_sockaddr (ADDR_UNIX ["a"; "b"]%byte)).
  { split; [vm_compute; reflexivity|reflexivity]. }
  assert (H2 : valid_sockaddr (ADDR_INET [x01; x02; x03; x04] 80)).
  { split; [left; reflexivity|lia]. }
  split; [exact H1|]. split; [exact H2|].
  destruct (two_handles_independent ex_sock ex_sock _ _ ex_world H1 H2)
    as (v1 & v2 & w2 & Hm & Hne & _ & He & _).
  exists v1, v2, w2. repeat split; assumption.
Defined.

(** X12.  Connect sends the length of the address, not the capacity of the
    buffer.  A handle is made from a socket address and connect is encoded
    with it on a live ring with a free slot: the encoder returns true, and the
    entry in its slot is a connect whose address word is the address of the
    handle's block and whose offset word is the native length of the socket
    address (16 for IPv4, 28 for IPv6, 2 plus the path for a Unix name). *)
Theorem connect_sends_native_length (junk : sock_addr_data) (a : sockaddr) (w : world)
    (v : positive) (p : Z) (r : io_uring) (v_id v_fd : Z) :
  live_ring w v p r ->
  sq_wf (sq r) ->
  sq_full (sq r) = false ->
  valid_sockaddr a ->
  exists vs q d e r2 w2,
    (v_sockaddr ← ocaml_uring_make_sockaddr junk a;
     b ← ocaml_uring_submit_connect v v_id v_fd v_sockaddr;
     mret (v_sockaddr, b)) w = Returns (vs, Val_true) w2 /\
    live_sockaddr w2 vs q d /\
    live_ring w2 v p r2 /\
    sqes (sq r2) !! sq_slot (sq r) = Some e /\
    opcode e = IORING_OP_CONNECT /\
    addr e = u64 q /\
    off e = native_length a /\
    fd e = Int_val v_fd /\
    user_data e = u64 (Long_val v_id).
Proof.
  intros L Hwf Hfree Ha. pose proof L as (Hv & Hp & Hr).
  destruct (get_alloc_roundtrip a junk Ha) as (d & Hg & Hlen & _ & _).
  pose proof (make_sockaddr_run junk a w) as M. cbv zeta in M. rewrite Hg in M.
  set (w1 := World _ _ _) in M.
  set (vs := fresh (dom (customs w))) in *.
  set (q := fresh ({[NULL]} ∪ dom (c_heap w))) in *.
  pose proof (new_handle_live w d) as Ls. fold vs q w1 in Ls.
  pose proof (new_handle_keeps_ring w v p r (Bsock d) L) as L1. fold vs q w1 in L1.
  assert (Hh : handles_ok w1 (Op_connect v_fd vs)) by (exists q, d; exact Ls).
  pose proof (encode_live w1 v p r (Op_connect v_fd vs) v_id L1 Hwf Hh) as E.
  rewrite Hfree in E. cbn [encode before_slot] in E.
  destruct Ls as (Hvs & Hq & Hd). pose proof L1 as (Hv1 & _ & Hr1).
  exists vs, q, d. eexists. eexists. eexists.
  split; [run M; run E; reflexivity|].
  split.
  { split; [exact Hvs|]. split; [exact Hq|]. unfold with_ring.
    rewrite with_block_lookup_ne; [exact Hd|]. intros Epq.
    apply (live_blocks_differ _ _ _ _ _ Hr1 Hd). symmetry; exact Epq. }
  split; [split; [exact Hv1|split; [exact Hp|apply with_block_lookup]]|].
  split; [cbn; apply list_lookup_insert_eq, sq_slot_lt, Hwf|].
  unfold entry_of. rewrite (handle_ptr_some _ _ _ Hvs).
  rewrite (handle_sock_live w1 vs q d (conj Hvs (conj Hq Hd))).
  unfold io_uring_prep_connect, io_uring_sqe_set_data, io_uring_prep_rw;
    cbn [opcode addr off fd user_data].
  split; [reflexivity|]. split; [reflexivity|].
  split; [rewrite Hlen; apply wrap_unsigned_small; pose proof (native_length_range a Ha); lia|].
  split; [|reflexivity]. unfold Int_val, s32. apply wrap_signed_idem. lia.
Qed.

Lemma connect_sends_native_length_witness :
  live_ring ex_world 1 4096 ex_ring /\
  valid_sockaddr (ADDR_INET [x01; x02; x03; x04] 80) /\
  exists vs e r2 w2,
    (v_sockaddr ← ocaml_uring_make_sockaddr ex_sock (ADDR_INET [x01; x02; x03; x04] 80);
     b ← ocaml_uring_submit_connect 1 9 3 v_sockaddr;
     mret (v_sockaddr, b)) ex_world = Returns (vs, Val_true) w2 /\
    live_ring w2 1 4096 r2 /\
    sqes (sq r2) !! sq_slot (sq ex_ring) = Some e /\
    off e = 16.
Proof.
  assert (Ha : valid_sockaddr (ADDR_INET [x01; x02; x03; x04] 80)).
  { split; [left; reflexivity|lia]. }
  split; [exact ex_world_live|]. split; [exact Ha|].
  destruct (connect_sends_native_length ex_sock _ ex_world 1 4096 ex_ring 9 3
              ex_world_live ex_ring_sq_wf eq_refl Ha)
    as (vs & q & d & e & r2 & w2 & Hrun & _ & L2 & He & _ & _ & Hoff & _).
  exists vs, e, r2, w2. split; [exact Hrun|]. split; [exact L2|]. split; [exact He|exact Hoff].
Defined.

(** X13.  File offsets are carried without loss.  For the four kinds of
    operation that take a file offset (vectored and fixed-buffer reads and
    writes) and any offset that is an OCaml integer, the offset word of the
    entry left in the slot, read as a signed 64-bit integer, is the offset
    given; -1, the current position, is the word of all ones. *)
Theorem offset_survives_encoding (w : world) (v : positive) (p : Z) (r : io_uring)
    (op : operation) (v_id o : Z) :
  live_ring w v p r ->
  sq_wf (sq r) ->
  sq_full (sq r) = false ->
  file_offset op = Some o ->
  ml_int_range o ->
  exists e r' w',
    encode op v v_id w = Returns Val_true w' /\
    live_ring w' v p r' /\
    sqes (sq r') !! sq_slot (sq r) = Some e /\
    s64 (off e) = o /\
    (o = -1 -> off e = 2 ^ 64 - 1).
Proof.
  intros L Hwf Hfree Ho Hr. pose proof L as (Hv & Hp & Hh).
  assert (Hok : handles_ok w op) by (destruct op; try discriminate Ho; exact I).
  pose proof (encode_live w v p r op v_id L Hwf Hok) as E. rewrite Hfree in E.
  assert (Hb : before_slot op w = w) by (destruct op; try discriminate Ho; reflexivity).
  rewrite Hb in E.
  exists (entry_of op v_id w), (set_sq r (sq_push (sq r) (entry_of op v_id w))). eexists.
  split; [exact E|].
  split; [split; [exact Hv|split; [exact Hp|apply with_block_lookup]]|].
  split; [cbn; apply list_lookup_insert_eq, sq_slot_lt, Hwf|].
  assert (Hoff : off (entry_of op v_id w) = u64 o).
  { destruct op; try discriminate Ho; injection Ho as ->; reflexivity. }
  rewrite Hoff. split.
  - unfold s64, u64. rewrite wrap_signed_unsigned by lia.
    apply wrap_signed_small; [lia|]. unfold ml_int_range in Hr.
    change (2 ^ (64 - 1)) with (2 * 2 ^ 62). lia.
  - intros ->. reflexivity.
Qed.

Lemma offset_survives_encoding_witness :
  live_ring ex_world 1 4096 ex_ring /\
  file_offset (Op_readv 3 (IovecVal 8193 2) (-1)) = Some (-1) /\
  ml_int_range (-1) /\
  exists e r' w',
    encode (Op_readv 3 (IovecVal 8193 2) (-1)) 1 9 ex_world = Returns Val_true w' /\
    live_ring w' 1 4096 r' /\
    sqes (sq r') !! sq_slot (sq ex_ring) = Some e /\
    off e = 2 ^ 64 - 1.
Proof.
  assert (Hr : ml_int_range (-1)) by (unfold ml_int_range; simpl; lia).
  split; [exact ex_world_live|]. split; [reflexivity|]. split; [exact Hr|].
  destruct (offset_survives_encoding ex_world 1 4096 ex_ring (Op_readv 3 (IovecVal 8193 2) (-1))
              9 (-1) ex_world_live ex_ring_sq_wf eq_refl eq_refl Hr)
    as (e & r' & w' & He & L' & Hs & _ & Hm).
  exists e, r', w'. split; [exact He|]. split; [exact L'|]. split; [exact Hs|exact (Hm eq_refl)].
Defined.

(** X14.  An open-options handle and openat2.  The handle is made, then
    openat2 is encoded with it on a live ring with a free slot: the encoder
    returns true and the entry in its slot is an openat2 whose offset word is
    the address of the handle's block, where the options are, whose address
    word points 24 bytes further, where the path is, and whose length is the
    size of the options. *)
Theorem openat2_points_into_handle (v_flags v_mode v_resolve : Z) (v_path : list byte)
    (w : world) (v : positive) (p : Z) (r : io_uring) (v_id v_fd : Z) :
  live_ring w v p r ->
  sq_wf (sq r) ->
  sq_full (sq r) = false ->
  exists vh q e r2 w2,
    (v_open_how ← ocaml_uring_make_open_how v_flags v_mode v_resolve v_path;
     b ← ocaml_uring_submit_openat2 v v_id v_fd v_open_how;
     mret (v_open_how, b)) w = Returns (vh, Val_true) w2 /\
    customs w2 !! vh = Some q /\
    c_heap w2 !! q =
      Some (Bhow (OpenHowData (u64 v_flags) (u64 v_mode) (u64 v_resolve) (v_path ++ [x00]))) /\
    live_ring w2 v p r2 /\
    sqes (sq r2) !! sq_slot (sq r) = Some e /\
    opcode e = IORING_OP_OPENAT2 /\
    off e = u64 q /\
    addr e = u64 (q + sizeof_open_how) /\
    len e = sizeof_open_how /\
    fd e = Int_val v_fd /\
    user_data e = u64 (Long_val v_id).
Proof.
  intros L Hwf Hfree. pose proof L as (Hv & Hp & Hr).
  pose proof (make_open_how_run v_flags v_mode v_resolve v_path w) as M. cbv zeta in M.
  set (w1 := World _ _ _) in M.
  set (vh := fresh (dom (customs w))) in *.
  set (q := fresh ({[NULL]} ∪ dom (c_heap w))) in *.
  pose proof (new_handle_keeps_ring w v p r
                (Bhow (OpenHowData (u64 v_flags) (u64 v_mode) (u64 v_resolve) (v_path ++ [x00]))) L)
    as L1. fold vh q w1 in L1.
  assert (Hvh : customs w1 !! vh = Some q) by apply lookup_insert_eq.
  assert (Hh : handles_ok w1 (Op_openat2 v_fd vh)) by (exists q; exact Hvh).
  pose proof (encode_live w1 v p r (Op_openat2 v_fd vh) v_id L1 Hwf Hh) as E.
  rewrite Hfree in E. cbn [encode before_slot] in E.
  pose proof L1 as (Hv1 & _ & Hr1).
  exists vh, q. eexists. eexists. eexists.
  split; [run M; run E; reflexivity|].
  split; [exact Hvh|].
  split.
  { unfold with_ring. rewrite with_block_lookup_ne; [apply lookup_insert_eq|].
    intros Epq. pose proof (fresh_addr_unused (c_heap w)) as F. fold q in F. congruence. }
  split; [split; [exact Hv1|split; [exact Hp|apply with_block_lookup]]|].
  split; [cbn; apply list_lookup_insert_eq, sq_slot_lt, Hwf|].
  unfold entry_of. rewrite (handle_ptr_some _ _ _ Hvh).
  unfold io_uring_prep_openat2, io_uring_sqe_set_data, io_uring_prep_rw;
    cbn [opcode addr off fd len user_data].
  repeat split. unfold Int_val, s32. apply wrap_signed_idem. lia.
Qed.

Lemma openat2_points_into_handle_witness :
  live_ring ex_world 1 4096 ex_ring /\
  sq_wf (sq ex_ring) /\
  sq_full (sq ex_ring) = false /\
  exists vh q e r2 w2,
    (v_open_how ← ocaml_uring_make_open_how 0 0 0 ["f"%byte];
     b ← ocaml_uring_submit_openat2 1 9 (-100) v_open_how;
     mret (v_open_how, b)) ex_world = Returns (vh, Val_true) w2 /\
    live_ring w2 1 4096 r2 /\
    sqes (sq r2) !! sq_slot (sq ex_ring) = Some e /\
    addr e = u64 (q + sizeof_open_how).
Proof.
  split; [exact ex_world_live|]. split; [exact ex_ring_sq_wf|]. split; [reflexivity|].
  destruct (openat2_points_into_handle 0 0 0 ["f"%byte] ex_world 1 4096 ex_ring 9 (-100)
              ex_world_live ex_ring_sq_wf eq_refl)
    as (vh & q & e & r2 & w2 & Hrun & _ & _ & L2 & He & _ & _ & Ha & _).
  exists vh, q, e, r2, w2. split; [exact Hrun|]. split; [exact L2|]. split; [exact He|exact Ha].
Defined.

(** X15.  Teardown of a live ring touches that ring only: every other ring
    handle that is live on another block stays live with the same ring, every
    socket-address handle stays live with the same data, and no other handle
    changes the pointer it holds. *)
Theorem teardown_frame (w : world) (v : positive) (p : Z) (r : io_uring) :
  live_ring w v p r ->
  exists w',
    ocaml_uring_exit v w = Returns Val_unit w' /\
    (forall v2 p2 r2, live_ring w v2 p2 r2 -> p2 <> p -> live_ring w' v2 p2 r2) /\
    (forall v2 q d, live_sockaddr w v2 q d -> live_sockaddr w' v2 q d) /\
    (forall v2, v2 <> v -> customs w' !! v2 = customs w !! v2) /\
    (forall a, a <> p -> c_heap w' !! a = c_heap w !! a).
Proof.
  intros L. pose proof L as (Hv & Hp & Hr).
  exists (after_exit w v p r). split; [apply exit_live, L|].
  unfold after_exit.
  split; [|split; [|split]].
  - intros v2 p2 r2 (H1 & H2 & H3) Hne.
    split; [|split; [exact H2|]]; cbn.
    + rewrite lookup_insert_ne; [exact H1|]. intros ->. congruence.
    + rewrite lookup_delete_ne; [exact H3|]. intros E; apply Hne; symmetry; exact E.
  - intros v2 q d (H1 & H2 & H3).
    assert (Hqp : q <> p) by exact (live_blocks_differ _ _ _ _ _ Hr H3).
    split; [|split; [exact H2|]]; cbn.
    + rewrite lookup_insert_ne; [exact H1|]. intros ->. congruence.
    + rewrite lookup_delete_ne; [exact H3|]. intros E; apply Hqp; symmetry; exact E.
  - intros v2 Hne. cbn. apply lookup_insert_ne. intros E; apply Hne; symmetry; exact E.
  - intros a Hne. cbn. apply lookup_delete_ne. intros E; apply Hne; symmetry; exact E.
Qed.

Lemma teardown_frame_witness :
  live_ring ex_world_sq_full 1 4096 ex_ring_sq_full /\
  exists w',
    ocaml_uring_exit 1 ex_world_sq_full = Returns Val_unit w' /\
    live_sockaddr w' 2 8192 ex_sock.
Proof.
  split; [exact ex_world_sq_full_live|].
  destruct (teardown_frame ex_world_sq_full 1 4096 ex_ring_sq_full ex_world_sq_full_live)
    as (w' & He & _ & Hs & _).
  exists w'. split; [exact He|]. exact (Hs 2%positive 8192 ex_sock ex_world_sq_full_sock).
Defined.

(** ** The completion ring is a queue *)



(** X17.  Peeking until nothing is left returns every unseen completion
    once, in the order the kernel posted them, and then the "no completion"
    value: none is lost, repeated or reordered. *)
Theorem drain_returns_all_in_order (k : Z) (w : world) (v : positive) (p : Z) (r : io_uring) :
  live_ring w v p r ->
  cq_inv k (cq r) ->
  exists r' w',
    drain (S (length (cq_unseen (cq r)))) v w =
      Returns (map pair_of (cq_unseen (cq r)) ++ [Val_cqe_none]) w' /\
    live_ring w' v p r' /\
    cq_unseen (cq r') = [] /\
    sq r' = sq r.
Proof.
  remember (cq_unseen (cq r)) as xs eqn:Hxs. revert w r Hxs.
  induction xs as [|x xs IH]; intros w r Hxs L Hinv.
  - exists r, w. split; [|split; [exact L|split; [symmetry; exact Hxs|reflexivity]]].
    simpl drain. bind_step.
    rewrite (peek_nothing w v p r L (cq_oldest_empty _ (eq_sym Hxs))). reflexivity.
  - assert (Hu : cq_unseen (cq r) ++ [] = x :: xs) by (rewrite app_nil_r; symmetry; exact Hxs).
    destruct (retrieve_head Peek k [] [] w v p r x xs L Hinv ltac:(destruct Hinv; simpl; lia) Hu)
      as (r1 & Hret & L1 & Hu1 & Hi1 & Hs1).
    rewrite app_nil_r in Hu1.
    destruct (IH _ r1 (eq_sym Hu1) L1 Hi1) as (r2 & w2 & Hd & L2 & Hu2 & Hs2).
    exists r2, w2. split; [|split; [exact L2|split; [exact Hu2|congruence]]].
    change (drain (S (length (x :: xs))) v)
      with (y ← ocaml_uring_peek_cqe (Kposted []) [] v;
            ys ← drain (S (length xs)) v; mret (y :: ys)).
    bind_step. change (ocaml_uring_peek_cqe (Kposted []) [] v w) with (retrieve Peek (Kposted []) [] v w).
    rewrite Hret. bind_step. rewrite Hd. reflexivity.
Qed.

Lemma drain_returns_all_in_order_witness :
  live_ring ex_world_cq_full 1 4096 ex_ring_cq_full /\
  cq_inv 2 (cq ex_ring_cq_full) /\
  exists w',
    drain 5 1 ex_world_cq_full =
      Returns [Some (7, 11); Some (8, 12); Some (9, 13); Some (10, 14); None] w'.
Proof.
  assert (Hinv : cq_inv 2 (cq ex_ring_cq_full)).
  { unfold cq_inv. vm_compute. repeat split; congruence. }
  split; [exact ex_world_cq_full_live|]. split; [exact Hinv|].
  destruct (drain_returns_all_in_order 2 ex_world_cq_full 1 4096 ex_ring_cq_full
              ex_world_cq_full_live Hinv) as (r' & w' & Hd & _).
  exists w'. exact Hd.
Defined.
